(** * Audit event filters of audit-tool: a shallow embedding and its properties

    The development follows [pkg/audit/filter] (the filter primitives, the
    REST path decomposer [URIToParts] and the pattern matcher [AcceptString])
    and the post-processing of [decodeAuditEvents] in [pkg/cmd/query].

    Conventions.
    - Go strings are byte strings: [string] of the standard library.
    - A Go run-time panic (index or slice out of range) is [None] in the
      [option] monad; [Some r] is a normal return of [r].
    - [sets.String] is [gset string], [sets.Int32] is [gset Z] and
      [map[schema.GroupResource]bool] is [gmap GroupResource bool].  Go
      iterates over a map in an unspecified order; the loops below run over
      [elements] / [map_to_list], and each scan is characterised by the
      members of the set, so the order does not matter. *)

From Stdlib Require Import ZArith String Ascii List Bool Lia.
From stdpp Require Import base option list strings gmap.

Local Open Scope string_scope.
Local Open Scope list_scope.

(** ** Go string primitives *)

Module GoStrings.

(** [len(s)] *)
Definition len (s : string) : nat := String.length s.

(** [s[i]]; panics when [i] is out of range. *)
Definition index (s : string) (i : nat) : option ascii := String.get i s.

(** [s[i:]]; panics when [i > len(s)]. *)
Definition slice_from (s : string) (i : nat) : option string :=
  if decide (i ≤ len s)%nat
  then Some (String.substring i (len s - i) s) else None.

(** [s[:j]] for a signed [j]; panics when [j < 0] or [j > len(s)]. *)
Definition slice_to (s : string) (j : Z) : option string :=
  if decide (0 ≤ j ∧ j ≤ Z.of_nat (len s))%Z
  then Some (String.substring 0 (Z.to_nat j) s) else None.

(** [strings.HasPrefix(s, prefix)] *)
Definition HasPrefix (s prefix : string) : bool :=
  (len prefix <=? len s)%nat
  && String.eqb (String.substring 0 (len prefix) s) prefix.

(** [strings.HasSuffix(s, suffix)] *)
Definition HasSuffix (s suffix : string) : bool :=
  (len suffix <=? len s)%nat
  && String.eqb (String.substring (len s - len suffix) (len suffix) s) suffix.

(** [strings.Split(s, sep)] for a separator of one byte, the only use in
    the package ("?", "/").  The result is never empty: a string without
    the separator yields the one-element slice holding it. *)
Fixpoint Split (s : string) (sep : ascii) : list string :=
  match s with
  | EmptyString => [EmptyString]
  | String c s' =>
      if Ascii.eqb c sep then EmptyString :: Split s' sep
      else match Split s' sep with
           | h :: t => String c h :: t
           | [] => [String c EmptyString]
           end
  end.

(** [strings.Join(elems, sep)] *)
Fixpoint Join (elems : list string) (sep : string) : string :=
  match elems with
  | [] => EmptyString
  | [e] => e
  | e :: rest => e +:+ sep +:+ Join rest sep
  end.

(** [elems[i:]] on a slice of strings; panics when [i > len(elems)]. *)
Definition slice_list_from {A} (l : list A) (i : nat) : option (list A) :=
  if decide (i ≤ length l)%nat then Some (drop i l) else None.

End GoStrings.
Import GoStrings.

(** ** schema.GroupResource and schema.GroupVersionResource *)

Record GroupResource := mkGR { gr_Group : string; gr_Resource : string }.

Record GroupVersionResource :=
  mkGVR { gvr_Group : string; gvr_Version : string; gvr_Resource : string }.

#[global] Instance GroupResource_eq_dec : EqDecision GroupResource.
Proof. solve_decision. Defined.

#[global] Instance GroupResource_countable : Countable GroupResource.
Proof.
  refine (inj_countable' (λ k, (gr_Group k, gr_Resource k))
                         (λ p, mkGR p.1 p.2) _).
  by intros [].
Defined.

(** [gvr.GroupResource()] *)
Definition GVR_GroupResource (gvr : GroupVersionResource) : GroupResource :=
  mkGR (gvr_Group gvr) (gvr_Resource gvr).

Definition set_Group (g : string) (gvr : GroupVersionResource) :=
  mkGVR g (gvr_Version gvr) (gvr_Resource gvr).
Definition set_Version (v : string) (gvr : GroupVersionResource) :=
  mkGVR (gvr_Group gvr) v (gvr_Resource gvr).
Definition set_Resource (r : string) (gvr : GroupVersionResource) :=
  mkGVR (gvr_Group gvr) (gvr_Version gvr) r.

(** The zero value [schema.GroupVersionResource{}]. *)
Definition emptyGVR : GroupVersionResource := mkGVR "" "" "".

(** ** URIToParts *)

(** The four results of [URIToParts]: namespace, group/version/resource,
    name and subresource. *)
Definition Parts : Type := string * GroupVersionResource * string * string.

(** Short-circuit [&&] whose right operand may panic. *)
Definition and_then (b : bool) (k : option bool) : option bool :=
  if b then k else Some false.

(** The code after the [switch] of the "api" branch. *)
Definition api_namespaced (parts : list string) (ns : string)
    (gvr : GroupVersionResource) (name : string) : option Parts :=
  if (length parts <? 4)%nat then Some (ns, gvr, name, "") else
  ns ← parts !! 3%nat;
  gvr ← (if (5 <=? length parts)%nat
         then p ← parts !! 4%nat; Some (set_Resource p gvr) else Some gvr);
  name ← (if (6 <=? length parts)%nat then parts !! 5%nat else Some name);
  if (7 <=? length parts)%nat
  then rest ← slice_list_from parts 6; Some (ns, gvr, name, Join rest "/")
  else Some (ns, gvr, name, "").

(** The "api" branch: legacy core group. *)
Definition api_branch (parts : list string) (ns : string)
    (gvr : GroupVersionResource) (name : string) : option Parts :=
  gvr ← (if (2 <=? length parts)%nat
         then p ← parts !! 1%nat; Some (set_Version p gvr) else Some gvr);
  if (length parts <? 3)%nat then Some (ns, gvr, name, "") else
  p2 ← parts !! 2%nat;
  if negb (String.eqb p2 "namespaces") then
    let gvr := set_Resource p2 gvr in
    if (4 <=? length parts)%nat
    then name ← parts !! 3%nat; Some (ns, gvr, name, "")
    else api_namespaced parts ns gvr name
  else if (length parts =? 3)%nat && String.eqb p2 "namespaces" then
    Some ("", set_Resource p2 gvr, "", "")
  else if (length parts =? 4)%nat && String.eqb p2 "namespaces" then
    p3 ← parts !! 3%nat;
    Some (p3, set_Resource p2 gvr, p3, "")
  else
    c1 ← and_then ((length parts =? 5)%nat && String.eqb p2 "namespaces")
                  (p4 ← parts !! 4%nat; Some (String.eqb p4 "finalize"));
    c2 ← (if c1 : bool then Some true else
          and_then ((length parts =? 5)%nat && String.eqb p2 "namespaces")
                   (p4 ← parts !! 4%nat; Some (String.eqb p4 "status")));
    if c2 : bool then
      p3 ← parts !! 3%nat;
      p4 ← parts !! 4%nat;
      Some (p3, set_Resource p2 gvr, p3, p4)
    else api_namespaced parts ns gvr name.

(** The "apis" branch: named groups. *)
Definition apis_branch (parts : list string) (ns : string)
    (gvr : GroupVersionResource) (name : string) : option Parts :=
  gvr ← (if (2 <=? length parts)%nat
         then p ← parts !! 1%nat; Some (set_Group p gvr) else Some gvr);
  gvr ← (if (3 <=? length parts)%nat
         then p ← parts !! 2%nat; Some (set_Version p gvr) else Some gvr);
  if (length parts <? 4)%nat then Some (ns, gvr, name, "") else
  p3 ← parts !! 3%nat;
  let tail (gvr : GroupVersionResource) : option Parts :=
    if (length parts <? 5)%nat then Some (ns, gvr, name, "") else
    ns ← parts !! 4%nat;
    gvr ← (if (6 <=? length parts)%nat
           then p ← parts !! 5%nat; Some (set_Resource p gvr) else Some gvr);
    name ← (if (7 <=? length parts)%nat then parts !! 6%nat else Some name);
    if (8 <=? length parts)%nat
    then rest ← slice_list_from parts 7; Some (ns, gvr, name, Join rest "/")
    else Some (ns, gvr, name, "") in
  if negb (String.eqb p3 "namespaces") then
    let gvr := set_Resource p3 gvr in
    if (5 <=? length parts)%nat
    then name ← parts !! 4%nat; Some (ns, gvr, name, "")
    else tail gvr
  else tail gvr.

(** The prologue of [URIToParts]: drop one leading slash. *)
Definition strip_slash (uri : string) : option string :=
  if (1 <=? len uri)%nat then
    c ← index uri 0;
    if Ascii.eqb c "/"%char then slice_from uri 1 else Some uri
  else Some uri.

(** The path segments [URIToParts] works on. *)
Definition uri_segments (uri : string) : option (list string) :=
  uri ← strip_slash uri;
  uri ← Split uri "?"%char !! 0%nat;
  Some (Split uri "/"%char).

Definition URIToParts (uri : string) : option Parts :=
  let ns := "" in
  let gvr := emptyGVR in
  let name := "" in
  parts ← uri_segments uri;
  if (length parts =? 0)%nat then Some (ns, gvr, name, "") else
  p0 ← parts !! 0%nat;
  if String.eqb p0 "api" then api_branch parts ns gvr name
  else if negb (String.eqb p0 "apis") then Some (ns, gvr, name, "")
  else apis_branch parts ns gvr name.

(** ** Time *)

(** [time.Time] values as they come out of the JSON decoder (no monotonic
    clock reading): an instant, counted in nanoseconds from a fixed epoch.
    [time.Duration] is an [int64] count of nanoseconds. *)
Definition Time : Type := Z.
Definition Duration : Type := Z.

Definition minDuration : Duration := (- 2 ^ 63)%Z.
Definition maxDuration : Duration := (2 ^ 63 - 1)%Z.

(** [t.After(u)] *)
Definition Time_After (t u : Time) : bool := (u <? t)%Z.

(** [t.Before(u)] *)
Definition Time_Before (t u : Time) : bool := (t <? u)%Z.

(** [t.Sub(u)]: the duration [t-u]; when it does not fit a [Duration] the
    library returns the maximum (or minimum) duration. *)
Definition Time_Sub (t u : Time) : Duration :=
  if (t - u <? minDuration)%Z then minDuration
  else if (maxDuration <? t - u)%Z then maxDuration
  else (t - u)%Z.

(** ** auditv1.Event *)

Record UserInfo := mkUserInfo { Username : string }.

Record ObjectReference := mkObjectReference { Name : string }.

Record Status := mkStatus { Code : Z }.

(** The fields of [auditv1.Event] the filters read.  [ObjectRef] and
    [ResponseStatus] are pointers in the source: [None] is [nil]. *)
Record Event := mkEvent {
  Stage : string;
  RequestURI : string;
  Verb : string;
  User : UserInfo;
  ObjectRef : option ObjectReference;
  ResponseStatus : option Status;
  RequestReceivedTimestamp : Time;
  StageTimestamp : Time;
  AuditID : string
}.

(** ** Loops *)

(** [for _, x := range xs { s = body(s, x) }], where the body may panic. *)
Fixpoint for_range {A S : Type} (body : S → A → option S) (xs : list A)
    (s : S) : option S :=
  match xs with
  | [] => Some s
  | x :: xs' => s' ← body s x; for_range body xs' s'
  end.

(** ** AcceptString *)

(** First loop of [AcceptString]: [Some (Some b)] is an early [return b],
    [Some None] is the end of the loop. *)
Fixpoint negated_wildcard_loop (currValue : string) (l : list string)
    : option (option bool) :=
  match l with
  | [] => Some None
  | allowedValue :: l' =>
      if negb (HasSuffix allowedValue "*") || negb (HasPrefix allowedValue "-")
      then negated_wildcard_loop currValue l'
      else
        p ← slice_to allowedValue (Z.of_nat (len allowedValue) - 1);
        if HasPrefix ("-" +:+ currValue) p then Some (Some false)
        else negated_wildcard_loop currValue l'
  end.

(** Second loop: the final value of [allValuesNegative]. *)
Fixpoint all_negative_loop (l : list string) : bool :=
  match l with
  | [] => true
  | allowedValue :: l' =>
      if negb (HasPrefix allowedValue "-") then false
      else all_negative_loop l'
  end.

(** Third loop. *)
Fixpoint wildcard_loop (currValue : string) (l : list string)
    : option (option bool) :=
  match l with
  | [] => Some None
  | allowedValue :: l' =>
      if negb (HasSuffix allowedValue "*") || HasPrefix allowedValue "-"
      then wildcard_loop currValue l'
      else
        p ← slice_to allowedValue (Z.of_nat (len allowedValue) - 1);
        if HasPrefix currValue p then Some (Some true)
        else wildcard_loop currValue l'
  end.

Definition AcceptString (allowedValues : gset string) (currValue : string)
    : option bool :=
  if decide ("-" +:+ currValue ∈ allowedValues) then Some false else
  r ← negated_wildcard_loop currValue (elements allowedValues);
  match r with
  | Some b => Some b
  | None =>
      let allValuesNegative := all_negative_loop (elements allowedValues) in
      if allValuesNegative then Some true else
      if decide (currValue ∈ allowedValues) then Some true else
      r ← wildcard_loop currValue (elements allowedValues);
      match r with
      | Some b => Some b
      | None => Some false
      end
  end.

(** ** Filter primitives *)

(** Each [FilterEvents] starts from [ret := []] and runs one loop over the
    events; the definitions below are the loop bodies, as functions of the
    slice built so far. *)

Definition FilterByFailures_body (ret : list Event) (event : Event)
    : option (list Event) :=
  match ResponseStatus event with
  | None => Some ret
  | Some st => if (299 <? Code st)%Z then Some (ret ++ [event]) else Some ret
  end.

Definition FilterByHTTPStatus_body (HTTPStatusCodes : gset Z)
    (ret : list Event) (event : Event) : option (list Event) :=
  match ResponseStatus event with
  | None => Some ret
  | Some st =>
      if decide (Code st ∈ HTTPStatusCodes) then Some (ret ++ [event])
      else Some ret
  end.

Definition FilterByNamespaces_body (Namespaces : gset string)
    (ret : list Event) (event : Event) : option (list Event) :=
  '(ns, _, _, _) ← URIToParts (RequestURI event);
  ok ← AcceptString Namespaces ns;
  if ok : bool then Some (ret ++ [event]) else Some ret.

Definition FilterBySubresources_body (Subresources : gset string)
    (ret : list Event) (event : Event) : option (list Event) :=
  '(_, _, _, subresource) ← URIToParts (RequestURI event);
  if bool_decide ("-*" ∈ Subresources)
     && (size Subresources =? 1)%nat && (len subresource =? 0)%nat
  then Some (ret ++ [event])
  else
    ok ← AcceptString Subresources subresource;
    if ok : bool then Some (ret ++ [event]) else Some ret.

Definition FilterByNames_body (Names : gset string)
    (ret : list Event) (event : Event) : option (list Event) :=
  '(_, _, name, _) ← URIToParts (RequestURI event);
  ok ← AcceptString Names name;
  if ok : bool then Some (ret ++ [event]) else
  match ObjectRef event with
  | None => Some ret
  | Some ref =>
      ok ← AcceptString Names (Name ref);
      if ok : bool then Some (ret ++ [event]) else Some ret
  end.

Definition FilterByUIDs_body (UIDs : gset string)
    (ret : list Event) (event : Event) : option (list Event) :=
  ok ← AcceptString UIDs (AuditID event);
  if ok : bool then Some (ret ++ [event]) else Some ret.

Definition FilterByUser_body (Users : gset string)
    (ret : list Event) (event : Event) : option (list Event) :=
  ok ← AcceptString Users (Username (User event));
  if ok : bool then Some (ret ++ [event]) else Some ret.

Definition FilterByVerbs_body (Verbs : gset string)
    (ret : list Event) (event : Event) : option (list Event) :=
  ok ← AcceptString Verbs (Verb event);
  if ok : bool then Some (ret ++ [event]) else Some ret.

(** [f.Resources[k]]: a missing key reads as [false]. *)
Definition listed (Resources : gmap GroupResource bool) (k : GroupResource)
    : bool :=
  default false (Resources !! k).

(** [for currResource := range f.Resources] of the anti-match scan; the
    result is the final value of [antiMatched]. *)
Fixpoint anti_match_loop (gvr : GroupVersionResource)
    (antiMatch : GroupResource) (keys : list GroupResource) : bool :=
  match keys with
  | [] => false
  | currResource :: keys' =>
      if String.eqb (gr_Group currResource) "*"
         && String.eqb (gr_Resource currResource) (gr_Resource antiMatch)
      then true
      else if String.eqb (gr_Resource currResource) "-*"
              && String.eqb (gr_Group currResource) (gvr_Group gvr)
      then true
      else anti_match_loop gvr antiMatch keys'
  end.

(** The last loop of [FilterByResources.FilterEvents]: [true] when the
    event is appended (the loop then breaks). *)
Fixpoint accept_loop (gvr : GroupVersionResource) (keys : list GroupResource)
    : bool :=
  match keys with
  | [] => false
  | currResource :: keys' =>
      if String.eqb (gr_Group currResource) "*"
         && String.eqb (gr_Resource currResource) "*"
      then true
      else if String.eqb (gr_Group currResource) "*"
              && String.eqb (gr_Resource currResource) (gvr_Resource gvr)
      then true
      else if String.eqb (gr_Resource currResource) "*"
              && String.eqb (gr_Group currResource) (gvr_Group gvr)
      then true
      else accept_loop gvr keys'
  end.

(** The keys of the map in iteration order. *)
Definition map_keys (Resources : gmap GroupResource bool)
    : list GroupResource :=
  (map_to_list Resources).*1.

Definition FilterByResources_body (Resources : gmap GroupResource bool)
    (ret : list Event) (event : Event) : option (list Event) :=
  '(_, gvr, _, _) ← URIToParts (RequestURI event);
  let antiMatch := mkGR (gvr_Group gvr) ("-" +:+ gvr_Resource gvr) in
  if listed Resources antiMatch then Some ret else
  let ret := if listed Resources (GVR_GroupResource gvr)
             then ret ++ [event] else ret in
  let antiMatched := anti_match_loop gvr antiMatch (map_keys Resources) in
  if antiMatched then Some ret else
  if accept_loop gvr (map_keys Resources) then Some (ret ++ [event])
  else Some ret.

Definition FilterByStage_body (Stages : gset string)
    (ret : list Event) (event : Event) : option (list Event) :=
  if decide (Stage event ∈ Stages) then Some (ret ++ [event]) else Some ret.

Definition FilterByAfter_body (After : Time)
    (ret : list Event) (event : Event) : option (list Event) :=
  if Time_After (RequestReceivedTimestamp event) After
  then Some (ret ++ [event]) else Some ret.

Definition FilterByBefore_body (Before : Time)
    (ret : list Event) (event : Event) : option (list Event) :=
  if Time_Before (RequestReceivedTimestamp event) Before
  then Some (ret ++ [event]) else Some ret.

Definition FilterByDuration_body (d : Duration)
    (ret : list Event) (event : Event) : option (list Event) :=
  if (Time_Sub (StageTimestamp event) (RequestReceivedTimestamp event) <=? d)%Z
  then Some (ret ++ [event]) else Some ret.

(** The implementations of the [AuditFilter] interface. *)
Inductive AuditFilter :=
| FilterByFailures
| FilterByHTTPStatus (HTTPStatusCodes : gset Z)
| FilterByNamespaces (Namespaces : gset string)
| FilterBySubresources (Subresources : gset string)
| FilterByNames (Names : gset string)
| FilterByUIDs (UIDs : gset string)
| FilterByUser (Users : gset string)
| FilterByVerbs (Verbs : gset string)
| FilterByResources (Resources : gmap GroupResource bool)
| FilterByStage (Stages : gset string)
| FilterByAfter (After : Time)
| FilterByBefore (Before : Time)
| FilterByDuration (d : Duration).

(** The loop body of each primitive. *)
Definition filter_body (f : AuditFilter)
    : list Event → Event → option (list Event) :=
  match f with
  | FilterByFailures => FilterByFailures_body
  | FilterByHTTPStatus c => FilterByHTTPStatus_body c
  | FilterByNamespaces s => FilterByNamespaces_body s
  | FilterBySubresources s => FilterBySubresources_body s
  | FilterByNames s => FilterByNames_body s
  | FilterByUIDs s => FilterByUIDs_body s
  | FilterByUser s => FilterByUser_body s
  | FilterByVerbs s => FilterByVerbs_body s
  | FilterByResources r => FilterByResources_body r
  | FilterByStage s => FilterByStage_body s
  | FilterByAfter t => FilterByAfter_body t
  | FilterByBefore t => FilterByBefore_body t
  | FilterByDuration d => FilterByDuration_body d
  end.

(** [filter.FilterEvents(events...)].  [FilterByStage] returns its argument
    when the stage set is empty; every other primitive builds a new slice. *)
Definition FilterEvents (f : AuditFilter) (events : list Event)
    : option (list Event) :=
  match f with
  | FilterByStage Stages =>
      if (size Stages =? 0)%nat then Some events
      else for_range (filter_body f) events []
  | _ => for_range (filter_body f) events []
  end.

(** [AuditFilters.FilterEvents]: a copy of the input goes through the
    filters from left to right. *)
Definition AuditFilters : Type := list AuditFilter.

Definition AuditFilters_FilterEvents (f : AuditFilters) (events : list Event)
    : option (list Event) :=
  let ret := events in
  for_range (λ ret filter, FilterEvents filter ret) f ret.

(** ** decodeAuditEvents *)

(** [data.Swap(i, j)] *)
Definition swap {A} (data : list A) (i j : nat) : option (list A) :=
  x ← data !! i;
  y ← data !! j;
  Some (<[j := x]> (<[i := y]> data)).

Section Sort.
Context {A : Type}.
(** [less] reads the slice being sorted, as the closure in the source. *)
Variable less : list A → nat → nat → option bool.

(** [for j := i; j > a && data.Less(j, j-1); j-- { data.Swap(j, j-1) }]
    with [a = 0]. *)
Fixpoint insertion_inner (j : nat) (data : list A) : option (list A) :=
  match j with
  | O => Some data
  | S j' =>
      b ← less data j j';
      if b : bool then data' ← swap data j j'; insertion_inner j' data'
      else Some data
  end.

(** [insertionSort_func(data, 0, n)] *)
Definition insertionSort_func (data : list A) : option (list A) :=
  for_range (λ data i, insertion_inner i data) (seq 1 (length data - 1)) data.

(** The pass with gap 6 that precedes the insertion sort. *)
Definition shell_pass (data : list A) : option (list A) :=
  for_range (λ data i,
               b ← less data i (i - 6)%nat;
               if b : bool then swap data i (i - 6)%nat else Some data)
            (seq 6 (length data - 6)) data.

(** [sort.Slice(data, less)] as it runs on a slice of at most 12
    elements: one pass with gap 6, then insertion sort.  On longer slices
    the library partitions first (quicksort with a heapsort fallback);
    that part is not modelled, and what is stated below about sorting is
    stated for at most 12 elements. *)
Definition sort_Slice (data : list A) : option (list A) :=
  if (1 <? length data)%nat
  then data ← shell_pass data; insertionSort_func data
  else Some data.
End Sort.

(** The comparison closure handed to [sort.Slice] in [decodeAuditEvents]. *)
Definition decode_less (events : list Event) (i j : nat) : option bool :=
  ei ← events !! i;
  ei' ← events !! i;
  Some (Time_After (RequestReceivedTimestamp ei)
                   (RequestReceivedTimestamp ei')).

(** [decodeAuditEvents] from the point where the file has been decoded into
    [events]: the filter sets are applied in turn and the result is handed
    to [sort.Slice]. *)
Definition decodeAuditEvents (events : list Event) (filters : list AuditFilters)
    : option (list Event) :=
  events ← for_range (λ events f, AuditFilters_FilterEvents f events)
                     filters events;
  sort_Slice decode_less events.

(** ** Printing (pkg/cmd/query/event_printer.go) *)

(** [printRequestURI]: the request path without its query. *)
Definition printRequestURI (u : string) : option string :=
  let parts := Split u "?"%char in
  if (0 <? length parts)%nat then parts !! 0%nat else Some u.

(** ** FilterByAround *)

(** The field of [corev1.Event] that [FilterByAround] reads. *)
Record CoreEvent := mkCoreEvent { LastTimestamp : Time }.

(** [l[i]] for a signed index; panics when [i] is out of range. *)
Definition index_Z {A} (l : list A) (i : Z) : option A :=
  if (i <? 0)%Z then None else l !! Z.to_nat i.

(** [-d] on [int64]: the least value is its own negation. *)
Definition Duration_neg (d : Duration) : Duration :=
  if (d =? minDuration)%Z then minDuration else (- d)%Z.

(** [t.Add(d)] *)
Definition Time_Add (t : Time) (d : Duration) : Time := (t + d)%Z.

Section Around.
(** [strconv.Atoi] ([None] is its error) and the instant
    [time.Date(t.Year(), t.Month(), t.Day(), h, m, s, t.Nanosecond(),
    t.Location())] as a function of [t], [h], [m] and [s]. *)
Variable Atoi : string → option Z.
Variable Date_on_day_of : Time → Z → Z → Z → Time.

Definition FilterByAround_body (aroundTime : Time) (AroundDuration : Duration)
    (ret : list CoreEvent) (event : CoreEvent) : option (list CoreEvent) :=
  if Time_After (LastTimestamp event) (Time_Add aroundTime AroundDuration)
     || Time_Before (LastTimestamp event)
                    (Time_Add aroundTime (Duration_neg AroundDuration))
  then Some ret
  else Some (ret ++ [event]).

(** [FilterByAround.FilterEvents]; a [nil] result is the empty list. *)
Definition FilterByAround_FilterEvents (Around : string)
    (AroundDuration : Duration) (events : list CoreEvent)
    : option (list CoreEvent) :=
  last ← index_Z events (Z.of_nat (length events) - 1);
  let t := LastTimestamp last in
  let aroundParts := Split Around ":"%char in
  if (length aroundParts <? 2)%nat || (3 <? length aroundParts)%nat
  then Some []
  else
    p0 ← aroundParts !! 0%nat;
    match Atoi p0 with
    | None => Some []
    | Some aroundTimeHours =>
        p1 ← aroundParts !! 1%nat;
        match Atoi p1 with
        | None => Some []
        | Some aroundTimeMinutes =>
            let continue aroundTimeSeconds :=
              let aroundTime :=
                Date_on_day_of t aroundTimeHours aroundTimeMinutes
                               aroundTimeSeconds in
              for_range (FilterByAround_body aroundTime AroundDuration)
                        events [] in
            if (2 <? length aroundParts)%nat
            then p2 ← aroundParts !! 2%nat;
                 match Atoi p2 with
                 | None => Some []
                 | Some aroundTimeSeconds => continue aroundTimeSeconds
                 end
            else continue 0%Z
        end
    end.
End Around.

(** ** The query command (pkg/cmd/query) *)

(** What a function with an [error] result can do: return a value, return
    an error, or panic. *)
Inductive result (A : Type) :=
| Ok (a : A)
| Error
| Panic.
Arguments Ok {A} a.
Arguments Error {A}.
Arguments Panic {A}.

Definition result_bind {A B} (r : result A) (k : A → result B) : result B :=
  match r with
  | Ok a => k a
  | Error => Error
  | Panic => Panic
  end.

(** An operation that can only panic. *)
Definition no_panic {A} (o : option A) : result A :=
  match o with Some a => Ok a | None => Panic end.

(** A library parser: [None] is its error. *)
Definition parsed {A} (o : option A) : result A :=
  match o with Some a => Ok a | None => Error end.

(** The fields of [Options] the filters and the printing loop read. *)
Record Options := mkOptions {
  o_from : string;
  o_to : string;
  o_limit : Z;
  o_verbs : list string;
  o_resources : list string;
  o_subresources : list string;
  o_namespaces : list string;
  o_names : list string;
  o_users : list string;
  o_uids : list string;
  o_failedOnly : bool;
  o_httpStatusCodes : list Z;
  o_stages : list string;
  o_duration : string
}.

(** The body of the loop of [setupFilters] over the resource arguments
    ("resource.group"). *)
Definition setupFilters_resource (resources : gmap GroupResource bool)
    (resource : string) : option (gmap GroupResource bool) :=
  let parts := Split resource "."%char in
  p0 ← parts !! 0%nat;
  let gr := mkGR "" p0 in
  gr ← (if (2 <=? length parts)%nat
        then rest ← slice_list_from parts 1;
             Some (mkGR (Join rest ".") (gr_Resource gr))
        else Some gr);
  Some (<[gr := true]> resources).

Section SetupFilters.
(** [time.Parse(timeDefaultFormat, s)] and [time.ParseDuration(s)]. *)
Variable time_Parse : string → option Time.
Variable time_ParseDuration : string → option Duration.

Definition setupFilters (o : Options) : result AuditFilters :=
  let filters : AuditFilters := [] in
  let filters := if (0 <? length (o_uids o))%nat
                 then filters ++ [FilterByUIDs (list_to_set (o_uids o))]
                 else filters in
  let filters := if (0 <? length (o_names o))%nat
                 then filters ++ [FilterByNames (list_to_set (o_names o))]
                 else filters in
  let filters := if (0 <? length (o_namespaces o))%nat
                 then filters
                      ++ [FilterByNamespaces (list_to_set (o_namespaces o))]
                 else filters in
  let filters := if (0 <? length (o_stages o))%nat
                 then filters ++ [FilterByStage (list_to_set (o_stages o))]
                 else filters in
  result_bind
    (if (0 <? len (o_to o))%nat
     then result_bind (parsed (time_Parse (o_to o)))
            (λ t, Ok (filters ++ [FilterByBefore t]))
     else Ok filters) (λ filters,
  result_bind
    (if (0 <? len (o_from o))%nat
     then result_bind (parsed (time_Parse (o_from o)))
            (λ t, Ok (filters ++ [FilterByAfter t]))
     else Ok filters) (λ filters,
  result_bind
    (if (0 <? length (o_resources o))%nat
     then result_bind
            (no_panic (for_range setupFilters_resource (o_resources o) ∅))
            (λ resources, Ok (filters ++ [FilterByResources resources]))
     else Ok filters) (λ filters,
  let filters := if (0 <? length (o_subresources o))%nat
                 then filters
                      ++ [FilterBySubresources
                            (list_to_set (o_subresources o))]
                 else filters in
  let filters := if (0 <? length (o_users o))%nat
                 then filters ++ [FilterByUser (list_to_set (o_users o))]
                 else filters in
  let filters := if (0 <? length (o_verbs o))%nat
                 then filters ++ [FilterByVerbs (list_to_set (o_verbs o))]
                 else filters in
  let filters := if (0 <? length (o_httpStatusCodes o))%nat
                 then filters
                      ++ [FilterByHTTPStatus
                            (list_to_set (o_httpStatusCodes o))]
                 else filters in
  let filters := if o_failedOnly o
                 then filters ++ [FilterByFailures] else filters in
  result_bind
    (if (0 <? len (o_duration o))%nat
     then result_bind (parsed (time_ParseDuration (o_duration o)))
            (λ d, Ok (filters ++ [FilterByDuration d]))
     else Ok filters) (λ filters,
  Ok filters)))).
End SetupFilters.

Section Run.
(** [printEvent], which formats one event for the terminal; it panics on
    an event without response status. *)
Variable printEvent : Event → option string.

(** The printing loop of [Run] (output other than "openmetrics"), from
    index [i] on: the lines handed to [pterm.Println]. *)
Fixpoint Run_print (limit : Z) (i : Z) (events : list Event)
    (out : list string) : option (list string) :=
  match events with
  | [] => Some out
  | e :: events' =>
      if (0 <? limit)%Z && (limit <? i)%Z then Some out
      else line ← printEvent e;
           Run_print limit (i + 1)%Z events' (out ++ [line])
  end.
End Run.

(** ** The audit directory (NewAuditDirReader) *)

(** [strings.Split(s, sep)] for a separator of several bytes: the pieces
    between the occurrences of [sep], found from left to right without
    overlap.  [skip] counts the bytes of an occurrence still to pass. *)
Fixpoint Split_from (sep : string) (s : string) (skip : nat) : list string :=
  match s with
  | EmptyString => [EmptyString]
  | String c s' =>
      match skip with
      | S k => Split_from sep s' k
      | O =>
          if HasPrefix s sep
          then EmptyString :: Split_from sep s' (len sep - 1)
          else match Split_from sep s' 0 with
               | h :: t => String c h :: t
               | [] => [String c EmptyString]
               end
      end
  end.

Definition Split_string (s sep : string) : list string := Split_from sep s 0.

Record auditFile := mkAuditFile {
  af_name : string;
  af_filePath : string;
  af_timestamp : Time
}.

(** The body of the loop of [NewAuditDirReader] that maps the audit files
    to nodes. *)
Definition NewAuditDirReader_body (files : gmap string (list auditFile))
    (f : auditFile) : option (gmap string (list auditFile)) :=
  let parts := Split_string (af_name f) "-audit" in
  nodeName ← parts !! 0%nat;
  match files !! nodeName with
  | None => Some (<[nodeName := [f]]> files)
  | Some l => Some (<[nodeName := l ++ [f]]> files)
  end.

(** [NewAuditDirReader] from the point where the audit files of the
    directory have been collected and sorted: the map from node to files. *)
Definition NewAuditDirReader_files (auditFiles : list auditFile)
    : option (gmap string (list auditFile)) :=
  for_range NewAuditDirReader_body auditFiles ∅.

(** The comparison closure handed to [sort.Slice] in [NewAuditDirReader]. *)
Definition auditFiles_less (auditFiles : list auditFile) (i j : nat)
    : option bool :=
  fi ← auditFiles !! i;
  fj ← auditFiles !! j;
  Some (Time_After (af_timestamp fi) (af_timestamp fj)).

(** The sort step of [NewAuditDirReader]. *)
Definition NewAuditDirReader_sort (auditFiles : list auditFile)
    : option (list auditFile) :=
  sort_Slice auditFiles_less auditFiles.

(** * Notions used in the statements *)

(** The root segment of a request path, read off the string itself: what
    lies between the optional leading slash and the first "/" or "?". *)
Fixpoint take_segment (s : string) : string :=
  match s with
  | EmptyString => EmptyString
  | String c s' =>
      if Ascii.eqb c "?"%char || Ascii.eqb c "/"%char then EmptyString
      else String c (take_segment s')
  end.

(** The root segment after the optional leading slash. *)
Definition root_segment (uri : string) : string :=
  match uri with
  | String c rest => if Ascii.eqb c "/"%char then take_segment rest
                     else take_segment uri
  | EmptyString => EmptyString
  end.

(** The all-empty result. *)
Definition emptyParts : Parts := ("", emptyGVR, "", "").

(** The total function behind [URIToParts]. *)
Definition uri_parts (uri : string) : Parts :=
  default emptyParts (URIToParts uri).

(** A negated wildcard pattern that covers [v]: the test of the first loop
    of [AcceptString] on one pattern. *)
Definition neg_wild_hit (v p : string) : bool :=
  HasSuffix p "*" && HasPrefix p "-"
  && HasPrefix ("-" +:+ v) (String.substring 0 (len p - 1) p).

(** A positive wildcard pattern that covers [v]: the test of the last loop. *)
Definition pos_wild_hit (v p : string) : bool :=
  HasSuffix p "*" && negb (HasPrefix p "-")
  && HasPrefix v (String.substring 0 (len p - 1) p).

(** The result of [AcceptString] as a total function. *)
Definition accepts (ps : gset string) (v : string) : bool :=
  if decide ("-" +:+ v ∈ ps) then false
  else if existsb (neg_wild_hit v) (elements ps) then false
  else if forallb (λ p, HasPrefix p "-") (elements ps) then true
  else if decide (v ∈ ps) then true
  else existsb (pos_wild_hit v) (elements ps).

(** What one event contributes to the output of a primitive. *)
Definition emit (f : AuditFilter) (event : Event) : list Event :=
  default [] (filter_body f [] event).

(** The primitive is a [FilterByResources]. *)
Definition is_FilterByResources (f : AuditFilter) : bool :=
  match f with FilterByResources _ => true | _ => false end.

(** The test of the accept scan on one specifier. *)
Definition accept_cond (gvr : GroupVersionResource) (k : GroupResource)
    : Prop :=
  (gr_Group k = "*" ∧ gr_Resource k = "*")
  ∨ (gr_Group k = "*" ∧ gr_Resource k = gvr_Resource gvr)
  ∨ (gr_Resource k = "*" ∧ gr_Group k = gvr_Group gvr).

(** The test of the anti-match scan on one specifier, for an event whose
    path decomposes to [gvr]. *)
Definition anti_cond (gvr : GroupVersionResource) (k : GroupResource) : Prop :=
  (gr_Group k = "*" ∧ gr_Resource k = "-" +:+ gvr_Resource gvr)
  ∨ (gr_Resource k = "-*" ∧ gr_Group k = gvr_Group gvr).

(** Some specifier of the set triggers the anti-match scan. *)
Definition anti_triggered (Resources : gmap GroupResource bool)
    (gvr : GroupVersionResource) : Prop :=
  ∃ k, is_Some (Resources !! k) ∧ anti_cond gvr k.

(** The specifier [(group, "-"+resource)] looked up first. *)
Definition antiMatch_of (gvr : GroupVersionResource) : GroupResource :=
  mkGR (gvr_Group gvr) ("-" +:+ gvr_Resource gvr).

(** An event with the given request path and timestamps. *)
Definition sample_event (uri : string) (received stage : Time) : Event :=
  mkEvent "ResponseComplete" uri "get" (mkUserInfo "alice") None None
          received stage "0f1e".
Arguments sample_event uri%_string received%_Z stage%_Z.

(** A request for a pod of the group "apps". *)
Definition pods_in_apps : Event :=
  sample_event "/apis/apps/v1/namespaces/ns/pods/x" 0 0.

(** The exact pair listed next to a group-wildcard anti specifier. *)
Definition exact_and_anti : gmap GroupResource bool :=
  <[mkGR "apps" "pods" := true]> (<[mkGR "*" "-pods" := true]> ∅).

(** Only the group-wildcard anti specifier. *)
Definition anti_only : gmap GroupResource bool :=
  <[mkGR "*" "-pods" := true]> ∅.

(** The exact pair listed next to the full wildcard. *)
Definition exact_and_wildcard : gmap GroupResource bool :=
  <[mkGR "apps" "pods" := true]> (<[mkGR "*" "*" := true]> ∅).

(** Adjacent events ordered by receive time, for a given order. *)
Definition ordered_by_received (rel : Z → Z → Prop) (events : list Event)
    : Prop :=
  ∀ i a b, events !! i = Some a → events !! S i = Some b →
           rel (RequestReceivedTimestamp a) (RequestReceivedTimestamp b).

(** Three events received at times 1, 3 and 2. *)
Definition out_of_order : list Event :=
  [sample_event "/api/v1/pods" 1 1; sample_event "/api/v1/pods" 3 3;
   sample_event "/api/v1/pods" 2 2].


(** The subresource [URIToParts] finds in the request path of an event. *)
Definition subresource_of (e : Event) : string :=
  match URIToParts (RequestURI e) with
  | Some (_, _, _, subresource) => subresource
  | None => ""
  end.

(** What one event contributes to the output of [FilterEvents]: as [emit],
    but [FilterByStage] with no stage hands every event on. *)
Definition contrib (f : AuditFilter) (event : Event) : list Event :=
  match f with
  | FilterByStage Stages =>
      if (size Stages =? 0)%nat then [event] else emit f event
  | _ => emit f event
  end.

(** How many times a primitive puts an event into its output. *)
Definition mult (f : AuditFilter) (event : Event) : nat :=
  length (contrib f event).

(** How many times a pipeline puts an event into its output. *)
Definition pipeline_mult (fs : AuditFilters) (event : Event) : nat :=
  foldr (λ f n, mult f event * n)%nat 1%nat fs.

(** Some specifier of the set satisfies the accept scan. *)
Definition accept_triggered (Resources : gmap GroupResource bool)
    (gvr : GroupVersionResource) : Prop :=
  ∃ k, is_Some (Resources !! k) ∧ accept_cond gvr k.

(** The group/version/resource [URIToParts] finds in the request path of
    an event. *)
Definition gvr_of (e : Event) : GroupVersionResource :=
  match URIToParts (RequestURI e) with
  | Some (_, gvr, _, _) => gvr
  | None => emptyGVR
  end.

(** The byte [c] does not occur in [s]. *)
Fixpoint free_of (c : ascii) (s : string) : bool :=
  match s with
  | EmptyString => true
  | String d s' => negb (Ascii.eqb d c) && free_of c s'
  end.

(** A path segment: a string without "/" and without "?". *)
Definition segment (s : string) : Prop :=
  free_of "/" s = true ∧ free_of "?" s = true.

(** The request path made of the given segments. *)
Definition join_path (segs : list string) : string :=
  "/" +:+ Join segs "/".

(** The options of a query that names resources only. *)
Definition only_resources (resources : list string) : Options :=
  mkOptions "" "" 0 [] resources [] [] [] [] [] false [] [] "".

(** The node an audit file belongs to: its name up to the first
    "-audit". *)
Definition node_of (f : auditFile) : string :=
  default "" (Split_string (af_name f) "-audit" !! 0%nat).

(** The files of a node among [fs], in their order; no entry when there
    is none. *)
Definition files_of_node (fs : list auditFile) (node : string)
    : option (list auditFile) :=
  match filter (λ f, node_of f = node) fs with
  | [] => None
  | l => Some l
  end.

(** Audit files ordered from the newest to the oldest. *)
Definition newest_first (l : list auditFile) : Prop :=
  ∀ i j fi fj, (i < j)%nat → l !! i = Some fi → l !! j = Some fj →
               (af_timestamp fj ≤ af_timestamp fi)%Z.

(** Elements at positions up to [i] are in descending order of key, but
    for the pairs whose second position is [j]: the invariant of the inner
    loop of the insertion sort. *)
Definition ord_except {A} (key : A → Z) (j i : nat) (data : list A) : Prop :=
  ∀ a b x y, (a < b)%nat → (b ≤ i)%nat → b ≠ j →
             data !! a = Some x → data !! b = Some y → (key y ≤ key x)%Z.

(** Elements at positions up to [i] are in descending order of key. *)
Definition ord_upto {A} (key : A → Z) (i : nat) (data : list A) : Prop :=
  ∀ a b x y, (a < b)%nat → (b ≤ i)%nat →
             data !! a = Some x → data !! b = Some y → (key y ≤ key x)%Z.

(** * Properties *)

(** ** Strings *)

Section StringFacts.

Lemma substring_0_app (a b : string) :
  String.substring 0 (len a) (a +:+ b) = a.
Proof. induction a as [|c a IH]; simpl; [by destruct b | by rewrite IH]. Qed.

Lemma substring_skip_app (a b : string) n :
  String.substring (len a) n (a +:+ b) = String.substring 0 n b.
Proof. induction a as [|c a IH]; simpl; [done | apply IH]. Qed.

Lemma substring_0_len (s : string) : String.substring 0 (len s) s = s.
Proof. induction s as [|c s IH]; simpl; [done | by rewrite IH]. Qed.

Lemma len_app (a b : string) : len (a +:+ b) = (len a + len b)%nat.
Proof. induction a as [|c a IH]; simpl; [done | by rewrite <- IH]. Qed.

Lemma split_at (s : string) n :
  (n ≤ len s)%nat →
  s = String.substring 0 n s +:+ String.substring n (len s - n) s.
Proof.
  revert n; induction s as [|c s IH]; intros [|n] Hn; simpl in *;
    try lia; try done.
  - by rewrite substring_0_len.
  - change (String c s = String c (String.substring 0 n s
                                   +:+ String.substring n (len s - n) s)).
    f_equal. apply IH. lia.
Qed.

Lemma HasPrefix_prefix s p : HasPrefix s p = String.prefix p s.
Proof.
  unfold HasPrefix. revert s; induction p as [|c p IH]; intros [|d s]; simpl;
    try done.
  rewrite <- IH.
  destruct (ascii_dec c d) as [->|Hne].
  - by rewrite Ascii.eqb_refl.
  - destruct (Ascii.eqb d c) eqn:E.
    + apply Ascii.eqb_eq in E. congruence.
    + by rewrite andb_false_r.
Qed.

Lemma HasPrefix_app s p : HasPrefix s p = true ↔ ∃ r, s = p +:+ r.
Proof.
  rewrite HasPrefix_prefix. revert s; induction p as [|c p IH]; intros s; simpl.
  - split; [eauto | by destruct s].
  - destruct s as [|d s]; [split; [done | by intros [r Hr]]|].
    simpl. destruct (ascii_dec c d) as [->|Hne].
    + rewrite IH. split; intros [r Hr]; exists r.
      * change (String d s = String d (p +:+ r)). congruence.
      * change (String d s = String d (p +:+ r)) in Hr. congruence.
    + split; [done | intros [r Hr]].
      change (String d s = String c (p +:+ r)) in Hr. congruence.
Qed.

Lemma HasPrefix_cons c s p :
  HasPrefix (String c s) (String c p) = HasPrefix s p.
Proof.
  rewrite !HasPrefix_prefix. simpl. by destruct (ascii_dec c c).
Qed.

Lemma HasSuffix_app s suf : HasSuffix s suf = true ↔ ∃ r, s = r +:+ suf.
Proof.
  unfold HasSuffix. rewrite andb_true_iff, Nat.leb_le, String.eqb_eq. split.
  - intros [Hle Hsub]. exists (String.substring 0 (len s - len suf) s).
    etrans; [apply (split_at s (len s - len suf)); lia|].
    f_equal. rewrite <- Hsub at 3. f_equal. lia.
  - intros [r ->]. rewrite len_app. split; [lia|].
    replace (len r + len suf - len suf)%nat with (len r) by lia.
    rewrite substring_skip_app. apply substring_0_len.
Qed.

(** [p[:len(p)-1]] of a pattern that ends in a star. *)
Lemma slice_to_star (q : string) :
  slice_to (q +:+ "*") (Z.of_nat (len (q +:+ "*")) - 1) = Some q.
Proof.
  unfold slice_to. rewrite len_app. simpl.
  rewrite decide_True by lia.
  replace (Z.to_nat (Z.of_nat (len q + 1) - 1)) with (len q) by lia.
  by rewrite substring_0_app.
Qed.

End StringFacts.

(** ** URIToParts never panics *)

Lemma Split_cons s sep : ∃ h t, Split s sep = h :: t.
Proof.
  induction s as [|c s (h & t & IH)]; simpl; [by eauto|].
  destruct (Ascii.eqb c sep); [by eauto|]. rewrite IH. eauto.
Qed.

Lemma Split_query_path s :
  ∃ q t1 t2, Split s "?"%char = q :: t1
             ∧ Split q "/"%char = take_segment s :: t2.
Proof.
  induction s as [|c s (q & t1 & t2 & Hq & Hs)]; simpl.
  - by exists "", [], [].
  - destruct (Ascii.eqb c "?") eqn:Eq; simpl.
    + by exists "", (Split s "?"%char), [].
    + rewrite Hq. exists (String c q), t1. simpl.
      destruct (Ascii.eqb c "/") eqn:Es.
      * by exists (Split q "/"%char).
      * rewrite Hs. by exists t2.
Qed.

Lemma strip_slash_total uri :
  strip_slash uri
  = Some (match uri with
          | String c rest => if Ascii.eqb c "/"%char then rest else uri
          | EmptyString => EmptyString
          end).
Proof.
  destruct uri as [|c rest]; [done|]. unfold strip_slash; simpl.
  destruct (Ascii.eqb c "/"); [|done].
  unfold slice_from. rewrite decide_True by (simpl; lia).
  simpl. by rewrite Nat.sub_0_r, substring_0_len.
Qed.

Lemma uri_segments_root uri :
  ∃ rest, uri_segments uri = Some (root_segment uri :: rest).
Proof.
  unfold uri_segments. rewrite strip_slash_total. simpl.
  unfold root_segment.
  destruct uri as [|c r].
  - by exists [].
  - destruct (Ascii.eqb c "/") eqn:E.
    + destruct (Split_query_path r) as (q & t1 & t2 & Hq & Hs).
      rewrite Hq. simpl. rewrite Hs. eauto.
    + destruct (Split_query_path (String c r)) as (q & t1 & t2 & Hq & Hs).
      rewrite Hq. simpl. rewrite Hs. eauto.
Qed.

(** Every guarded access succeeds once the list is taken apart as far as
    the guards look. *)
Ltac branch_total :=
  cbn;
  repeat match goal with
         | |- context [String.eqb ?a ?b] => destruct (String.eqb a b); cbn
         end;
  unfold slice_list_from;
  try (rewrite decide_True by (simpl; lia); cbn);
  eauto.

Lemma api_branch_total parts ns gvr name :
  is_Some (api_branch parts ns gvr name).
Proof.
  unfold api_branch, api_namespaced, and_then.
  destruct parts as [|p0 [|p1 [|p2 [|p3 [|p4 [|p5 [|p6 rest]]]]]]];
    branch_total.
Qed.

Lemma apis_branch_total parts ns gvr name :
  is_Some (apis_branch parts ns gvr name).
Proof.
  unfold apis_branch.
  destruct parts as [|p0 [|p1 [|p2 [|p3 [|p4 [|p5 [|p6 [|p7 rest]]]]]]]];
    branch_total.
Qed.

Lemma URIToParts_is_Some uri : is_Some (URIToParts uri).
Proof.
  unfold URIToParts. destruct (uri_segments_root uri) as [rest ->]. simpl.
  destruct (String.eqb _ "api"); [apply api_branch_total|].
  destruct (String.eqb _ "apis"); simpl; [apply apis_branch_total | eauto].
Qed.

Lemma URIToParts_other_root uri :
  root_segment uri ≠ "api" → root_segment uri ≠ "apis" →
  URIToParts uri = Some emptyParts.
Proof.
  intros H1 H2. unfold URIToParts.
  destruct (uri_segments_root uri) as [rest ->]. simpl.
  apply String.eqb_neq in H1, H2. by rewrite H1, H2.
Qed.

Lemma URIToParts_uri_parts uri : URIToParts uri = Some (uri_parts uri).
Proof.
  unfold uri_parts. by destruct (URIToParts_is_Some uri) as [r ->].
Qed.

(** ** AcceptString never panics, and what it computes *)

Lemma slice_to_HasSuffix_star p :
  HasSuffix p "*" = true →
  slice_to p (Z.of_nat (len p) - 1) = Some (String.substring 0 (len p - 1) p).
Proof.
  intros [r ->]%HasSuffix_app. rewrite slice_to_star, len_app. simpl.
  replace (len r + 1 - 1)%nat with (len r) by lia.
  by rewrite substring_0_app.
Qed.

Lemma negated_wildcard_loop_spec v l :
  negated_wildcard_loop v l
  = Some (if existsb (neg_wild_hit v) l then Some false else None).
Proof.
  induction l as [|p l IH]; simpl; [done|]. unfold neg_wild_hit at 1.
  destruct (HasSuffix p "*") eqn:Hs; simpl; [|done].
  destruct (HasPrefix p "-"); simpl; [|done].
  rewrite slice_to_HasSuffix_star by done. simpl.
  by destruct (HasPrefix _ _).
Qed.

Lemma all_negative_loop_spec l :
  all_negative_loop l = forallb (λ p, HasPrefix p "-") l.
Proof.
  induction l as [|p l IH]; simpl; [done|]. by destruct (HasPrefix p "-").
Qed.

Lemma wildcard_loop_spec v l :
  wildcard_loop v l
  = Some (if existsb (pos_wild_hit v) l then Some true else None).
Proof.
  induction l as [|p l IH]; simpl; [done|]. unfold pos_wild_hit at 1.
  destruct (HasSuffix p "*") eqn:Hs; simpl; [|done].
  destruct (HasPrefix p "-"); simpl; [done|].
  rewrite slice_to_HasSuffix_star by done. simpl.
  by destruct (HasPrefix _ _).
Qed.

Lemma AcceptString_accepts ps v : AcceptString ps v = Some (accepts ps v).
Proof.
  unfold AcceptString, accepts. case_decide; [done|].
  rewrite negated_wildcard_loop_spec. simpl.
  destruct (existsb (neg_wild_hit v) _); [done|].
  rewrite all_negative_loop_spec.
  destruct (forallb _ _); [done|]. case_decide; [done|].
  rewrite wildcard_loop_spec. simpl. by destruct (existsb _ _).
Qed.

(** The patterns the first loop reacts to are exactly those of the shape
    "-q*" with [q] a prefix of the value. *)
Lemma neg_wild_hit_shape v p :
  neg_wild_hit v p = true
  ↔ ∃ q, p = "-" +:+ (q +:+ "*") ∧ HasPrefix v q = true.
Proof.
  unfold neg_wild_hit. rewrite !andb_true_iff. split.
  - intros [[Hs Hp] Hv].
    apply HasSuffix_app in Hs as [r ->]. apply HasPrefix_app in Hp as [r' Hr'].
    destruct r as [|c q]; [destruct r'; discriminate|].
    assert (c = "-"%char) as ->.
    { change (String c (q +:+ "*") = String "-" r') in Hr'. congruence. }
    exists q. split; [done|].
    rewrite len_app in Hv. simpl len in Hv.
    replace (S (len q) + 1 - 1)%nat with (len (String "-" q)) in Hv
      by (simpl; lia).
    rewrite substring_0_app in Hv.
    change ("-" +:+ v) with (String "-" v) in Hv.
    by rewrite HasPrefix_cons in Hv.
  - intros (q & -> & Hv).
    change ("-" +:+ (q +:+ "*")) with (String "-" q +:+ "*").
    split; [split|].
    + apply HasSuffix_app. eauto.
    + apply HasPrefix_app. by exists (q +:+ "*").
    + rewrite len_app. simpl len.
      replace (S (len q) + 1 - 1)%nat with (len (String "-" q))
        by (simpl; lia).
      rewrite substring_0_app.
      change ("-" +:+ v) with (String "-" v). by rewrite HasPrefix_cons.
Qed.

Lemma existsb_elements (P : string → bool) (ps : gset string) :
  existsb P (elements ps) = true ↔ ∃ p, p ∈ ps ∧ P p = true.
Proof.
  rewrite existsb_exists. setoid_rewrite <- list_elem_of_In.
  by setoid_rewrite elem_of_elements.
Qed.

Lemma forallb_elements (P : string → bool) (ps : gset string) :
  forallb P (elements ps) = true ↔ ∀ p, p ∈ ps → P p = true.
Proof.
  rewrite forallb_forall. setoid_rewrite <- list_elem_of_In.
  by setoid_rewrite elem_of_elements.
Qed.

(** Steps 1 and 2 reject whatever the rest of the set says. *)
Lemma accepts_negated_wildcard ps v q :
  "-" +:+ (q +:+ "*") ∈ ps → HasPrefix v q = true → accepts ps v = false.
Proof.
  intros Hin Hv. unfold accepts. case_decide; [done|].
  assert (existsb (neg_wild_hit v) (elements ps) = true) as ->; [|done].
  apply existsb_elements. eexists; split; [done|].
  apply neg_wild_hit_shape. eauto.
Qed.

(** An all-negative set accepts what no negation covers. *)
Lemma accepts_all_negative ps v :
  (∀ p, p ∈ ps → HasPrefix p "-" = true) →
  "-" +:+ v ∉ ps →
  (∀ q, "-" +:+ (q +:+ "*") ∈ ps → HasPrefix v q = false) →
  accepts ps v = true.
Proof.
  intros Hneg Hlit Hwild. unfold accepts. rewrite decide_False by done.
  destruct (existsb (neg_wild_hit v) (elements ps)) eqn:E.
  - apply existsb_elements in E as (p & Hp & Hhit).
    apply neg_wild_hit_shape in Hhit as (q & -> & Hq).
    rewrite (Hwild q Hp) in Hq. discriminate.
  - by apply forallb_elements in Hneg as ->.
Qed.

(** ** The filter loops *)

Lemma for_range_emit {A B} (body : list B → A → option (list B))
    (emit : A → list B) :
  (∀ ret x, body ret x = Some (ret ++ emit x)) →
  ∀ xs ret, for_range body xs ret = Some (ret ++ (xs ≫= emit)).
Proof.
  intros Hbody. induction xs as [|x xs IH]; intros ret; simpl.
  - by rewrite app_nil_r.
  - rewrite Hbody. simpl. rewrite IH. by rewrite <- app_assoc.
Qed.

Ltac body_simpl :=
  repeat first
    [ rewrite URIToParts_uri_parts
    | rewrite AcceptString_accepts
    | progress simpl
    | match goal with
      | |- context [let '(_, _) := ?p in _] => destruct p
      | |- context [match ?x with _ => _ end] => destruct x
      end ].

Lemma filter_body_emit f ret event :
  filter_body f ret event = Some (ret ++ emit f event).
Proof.
  unfold emit.
  destruct f; simpl;
    unfold FilterByFailures_body, FilterByHTTPStatus_body,
      FilterByNamespaces_body, FilterBySubresources_body, FilterByNames_body,
      FilterByUIDs_body, FilterByUser_body, FilterByVerbs_body,
      FilterByResources_body, FilterByStage_body, FilterByAfter_body,
      FilterByBefore_body, FilterByDuration_body;
    body_simpl; rewrite ?app_nil_r; try done.
  by rewrite <- app_assoc.
Qed.

Lemma FilterEvents_emit f events :
  FilterEvents f events
  = Some (match f with
          | FilterByStage Stages =>
              if (size Stages =? 0)%nat then events else events ≫= emit f
          | _ => events ≫= emit f
          end).
Proof.
  unfold FilterEvents.
  destruct f; try (by rewrite (for_range_emit _ _ (filter_body_emit _))).
  case_match; [done|].
  by rewrite (for_range_emit _ _ (filter_body_emit _)).
Qed.

(** No primitive panics. *)
Lemma FilterEvents_is_Some f events : is_Some (FilterEvents f events).
Proof. rewrite FilterEvents_emit. eauto. Qed.

Lemma elem_of_emit f x event : x ∈ emit f event → x = event.
Proof.
  unfold emit.
  destruct f; simpl;
    unfold FilterByFailures_body, FilterByHTTPStatus_body,
      FilterByNamespaces_body, FilterBySubresources_body, FilterByNames_body,
      FilterByUIDs_body, FilterByUser_body, FilterByVerbs_body,
      FilterByResources_body, FilterByStage_body, FilterByAfter_body,
      FilterByBefore_body, FilterByDuration_body;
    body_simpl; intros Hx;
    repeat (apply elem_of_cons in Hx as [Hx|Hx]; [exact Hx|]);
    by apply elem_of_nil in Hx.
Qed.

Lemma elem_of_bind_emit f events e :
  e ∈ events ≫= emit f ↔ e ∈ events ∧ e ∈ emit f e.
Proof.
  rewrite list_elem_of_bind. split.
  - intros (x & Hx & Hin).
    pose proof (elem_of_emit _ _ _ Hx) as ->. done.
  - intros [? ?]. eauto.
Qed.

(** A primitive that appends each event at most once yields a sublist. *)
Lemma bind_sublist {A} (g : A → list A) (xs : list A) :
  (∀ x, g x = [] ∨ g x = [x]) → sublist (xs ≫= g) xs.
Proof.
  intros Hg. induction xs as [|x xs IH]; simpl; [constructor|].
  destruct (Hg x) as [-> | ->]; simpl; by constructor.
Qed.

Lemma emit_at_most_once f event :
  is_FilterByResources f = false → emit f event = [] ∨ emit f event = [event].
Proof.
  intros Hf. unfold emit.
  destruct f; try discriminate; simpl;
    unfold FilterByFailures_body, FilterByHTTPStatus_body,
      FilterByNamespaces_body, FilterBySubresources_body, FilterByNames_body,
      FilterByUIDs_body, FilterByUser_body, FilterByVerbs_body,
      FilterByStage_body, FilterByAfter_body,
      FilterByBefore_body, FilterByDuration_body;
    body_simpl; auto.
Qed.

(** Every primitive but [FilterByResources] returns an ordered subsequence
    of its input. *)
Lemma FilterEvents_sublist f events :
  is_FilterByResources f = false →
  ∃ out, FilterEvents f events = Some out ∧ sublist out events.
Proof.
  intros Hf. rewrite FilterEvents_emit. eexists; split; [done|].
  assert (sublist (events ≫= emit f) events)
    by (apply bind_sublist; intros; by apply emit_at_most_once).
  destruct f; try done. by case_match.
Qed.

(** ** The resource matcher *)

Lemma anti_match_loop_true gvr keys :
  anti_match_loop gvr (antiMatch_of gvr) keys = true
  ↔ ∃ k, k ∈ keys ∧ anti_cond gvr k.
Proof.
  unfold anti_cond. induction keys as [|k keys IH]; simpl.
  - split; [done | by intros (k & ?%elem_of_nil & _)].
  - destruct (String.eqb (gr_Group k) "*"
              && String.eqb (gr_Resource k) ("-" +:+ gvr_Resource gvr)) eqn:E1.
    { apply andb_true_iff in E1 as [?%String.eqb_eq ?%String.eqb_eq].
      split; [|done]. intros _. exists k. split; [left|]; auto. }
    destruct (String.eqb (gr_Resource k) "-*"
              && String.eqb (gr_Group k) (gvr_Group gvr)) eqn:E2.
    { apply andb_true_iff in E2 as [?%String.eqb_eq ?%String.eqb_eq].
      split; [|done]. intros _. exists k. split; [left|]; auto. }
    rewrite IH. split.
    + intros (k' & ? & ?). exists k'. split; [by right | done].
    + intros (k' & [->|?]%elem_of_cons & Hc); [|by eauto].
      exfalso. destruct Hc as [[H1 H2]|[H1 H2]].
      * by rewrite H1, H2, !String.eqb_refl in E1.
      * by rewrite H1, H2, !String.eqb_refl in E2.
Qed.

Lemma accept_loop_true gvr keys :
  accept_loop gvr keys = true ↔ ∃ k, k ∈ keys ∧ accept_cond gvr k.
Proof.
  unfold accept_cond. induction keys as [|k keys IH]; simpl.
  - split; [done | by intros (k & ?%elem_of_nil & _)].
  - destruct (String.eqb (gr_Group k) "*") eqn:Eg;
      destruct (String.eqb (gr_Resource k) "*") eqn:Er;
      destruct (String.eqb (gr_Resource k) (gvr_Resource gvr)) eqn:Es;
      destruct (String.eqb (gr_Group k) (gvr_Group gvr)) eqn:Et; simpl;
      rewrite ?String.eqb_eq, ?String.eqb_neq in *;
      try (split; [intros _; exists k; split; [left|]; tauto | done]).
    all: rewrite IH; split;
      [ intros (k' & ? & ?); exists k'; split; [by right | done]
      | intros (k' & [->|?]%elem_of_cons & Hc); [exfalso; tauto | by eauto] ].
Qed.

Lemma elem_of_map_keys (Resources : gmap GroupResource bool) k :
  k ∈ map_keys Resources ↔ is_Some (Resources !! k).
Proof.
  unfold map_keys. rewrite list_elem_of_fmap. split.
  - intros ([k' v] & -> & Hin). apply elem_of_map_to_list in Hin. by eexists.
  - intros [v Hv]. exists (k, v). split; [done|].
    by apply elem_of_map_to_list.
Qed.

Lemma anti_match_loop_triggered Resources gvr :
  anti_match_loop gvr (antiMatch_of gvr) (map_keys Resources) = true
  ↔ anti_triggered Resources gvr.
Proof.
  rewrite anti_match_loop_true. unfold anti_triggered.
  by setoid_rewrite elem_of_map_keys.
Qed.

(** The scan does not depend on the order in which the map is iterated. *)
Lemma anti_match_loop_order gvr keys keys' :
  keys ≡ₚ keys' →
  anti_match_loop gvr (antiMatch_of gvr) keys
  = anti_match_loop gvr (antiMatch_of gvr) keys'.
Proof.
  intros Hp. apply eq_true_iff_eq. rewrite !anti_match_loop_true.
  by setoid_rewrite Hp.
Qed.

Lemma emit_FilterByResources Resources event ns gvr name sub :
  URIToParts (RequestURI event) = Some (ns, gvr, name, sub) →
  emit (FilterByResources Resources) event
  = if listed Resources (antiMatch_of gvr) then []
    else (if listed Resources (GVR_GroupResource gvr) then [event] else [])
         ++ (if anti_match_loop gvr (antiMatch_of gvr) (map_keys Resources)
             then []
             else if accept_loop gvr (map_keys Resources) then [event]
                  else []).
Proof.
  intros Huri. unfold emit. simpl. unfold FilterByResources_body.
  rewrite Huri. simpl. fold (antiMatch_of gvr).
  destruct (listed Resources (antiMatch_of gvr)); [done|].
  destruct (listed Resources (GVR_GroupResource gvr));
    destruct (anti_match_loop _ _ _); try done;
    by destruct (accept_loop _ _).
Qed.

(** X4: a pipeline without [FilterByResources] returns an ordered
    subsequence of its input. *)
Lemma AuditFilters_sublist (fs : AuditFilters) events :
  Forall (λ f, is_FilterByResources f = false) fs →
  ∃ out, AuditFilters_FilterEvents fs events = Some out ∧ sublist out events.
Proof.
  unfold AuditFilters_FilterEvents. intros Hfs. revert events.
  induction Hfs as [|f fs Hf _ IH]; intros events; simpl; [by eauto|].
  destruct (FilterEvents_sublist f events Hf) as (mid & -> & Hmid). simpl.
  destruct (IH mid) as (out & -> & Hout). exists out. split; [done|].
  by etrans.
Qed.

(** ** The sort step of decodeAuditEvents *)

Lemma decode_less_false events i j :
  (i < length events)%nat → decode_less events i j = Some false.
Proof.
  intros [e He]%lookup_lt_is_Some. unfold decode_less. rewrite He. simpl.
  unfold Time_After. by rewrite Z.ltb_irrefl.
Qed.

Lemma for_range_fixed {A S} (body : S → A → option S) (xs : list A) (s : S) :
  (∀ x, x ∈ xs → body s x = Some s) → for_range body xs s = Some s.
Proof.
  induction xs as [|x xs IH]; intros Hb; simpl; [done|].
  rewrite Hb by left. simpl. apply IH. intros y Hy. apply Hb. by right.
Qed.

(** The comparison never answers [true], so no element is ever moved. *)
Lemma sort_Slice_decode_less events :
  sort_Slice decode_less events = Some events.
Proof.
  unfold sort_Slice. case_match; [|done].
  assert (shell_pass decode_less events = Some events) as ->.
  { apply for_range_fixed. intros i [? ?]%elem_of_seq.
    by rewrite decode_less_false by lia. }
  simpl. apply for_range_fixed. intros i [? ?]%elem_of_seq.
  destruct i as [|i]; simpl; [done|].
  by rewrite decode_less_false by lia.
Qed.

Lemma decodeAuditEvents_order events filters :
  decodeAuditEvents events filters
  = for_range (λ events f, AuditFilters_FilterEvents f events) filters events.
Proof.
  unfold decodeAuditEvents. destruct (for_range _ _ _); simpl; [|done].
  apply sort_Slice_decode_less.
Qed.

(** * The specification, claim by claim *)

(** ** Resource matcher *)

(** C1, as the specification states it, fails: the anti-match scan is
    triggered by the specifier ("*", "-pods"), yet the event, whose exact
    pair ("apps", "pods") is listed, is in the output. *)
Lemma C1_anti_match_does_not_override_exact :
  URIToParts (RequestURI pods_in_apps)
  = Some ("ns", mkGVR "apps" "v1" "pods", "x", "")
  ∧ anti_triggered exact_and_anti (mkGVR "apps" "v1" "pods")
  ∧ listed exact_and_anti (mkGR "apps" "pods") = true
  ∧ FilterEvents (FilterByResources exact_and_anti) [pods_in_apps]
    = Some [pods_in_apps].
Proof.
  split; [reflexivity|]. split; [|split; vm_compute; reflexivity].
  exists (mkGR "*" "-pods"). split; [by eexists; vm_compute | by left].
Qed.

(** C1 (amended): when the anti-match scan is triggered for an event, the
    event is in the output of FilterByResources.FilterEvents exactly when
    its exact (group, resource) pair is listed and the specifier
    (group, "-"+resource) is not; without an exact listing it is excluded. *)
Theorem C1_anti_match_scan Resources events e ns gvr name sub :
  URIToParts (RequestURI e) = Some (ns, gvr, name, sub) →
  anti_triggered Resources gvr →
  ∃ out, FilterEvents (FilterByResources Resources) events = Some out
         ∧ (e ∈ out ↔ e ∈ events
                      ∧ listed Resources (antiMatch_of gvr) = false
                      ∧ listed Resources (GVR_GroupResource gvr) = true).
Proof.
  intros Huri Hanti. rewrite FilterEvents_emit. eexists; split; [done|].
  rewrite elem_of_bind_emit, (emit_FilterByResources _ _ _ _ _ _ Huri).
  apply anti_match_loop_triggered in Hanti as ->.
  destruct (listed Resources (antiMatch_of gvr));
    destruct (listed Resources (GVR_GroupResource gvr)); simpl;
    rewrite ?list_elem_of_singleton, ?elem_of_nil; intuition congruence.
Qed.

Lemma C1_anti_match_scan_witness :
  ∃ out, FilterEvents (FilterByResources anti_only) [pods_in_apps] = Some out
         ∧ (pods_in_apps ∈ out
            ↔ pods_in_apps ∈ [pods_in_apps]
              ∧ listed anti_only (antiMatch_of (mkGVR "apps" "v1" "pods"))
                = false
              ∧ listed anti_only (GVR_GroupResource (mkGVR "apps" "v1" "pods"))
                = true).
Proof.
  apply (C1_anti_match_scan anti_only [pods_in_apps] pods_in_apps
           "ns" (mkGVR "apps" "v1" "pods") "x" "").
  - reflexivity.
  - exists (mkGR "*" "-pods"). split.
    + exists true. vm_compute. reflexivity.
    + left. split; reflexivity.
Defined.

(** C2: FilterByResources.FilterEvents does not return a subsequence of its
    input.  With the exact pair and the full wildcard both in the set, the
    event is appended once for the exact match and once more by the accept
    scan: one input event, two output events. *)
Theorem C2_FilterByResources_duplicates :
  FilterEvents (FilterByResources exact_and_wildcard) [pods_in_apps]
  = Some [pods_in_apps; pods_in_apps]
  ∧ ¬ sublist [pods_in_apps; pods_in_apps] [pods_in_apps].
Proof.
  split; [vm_compute; reflexivity|].
  intros H%sublist_length. simpl in H. lia.
Qed.

(** ** Pattern matcher *)

(** C3, as the specification states it, fails: "--a*" is a negated wildcard,
    "-"+"abc" has the prefix "-a" (the pattern without its leading "-" and
    its trailing "*"), and "abc" is accepted. *)
Lemma C3_prefix_of_dash_value_not_rejected :
  "--a*" ∈ ({["--a*"]} : gset string)
  ∧ HasPrefix "--a*" "-" = true
  ∧ HasSuffix "--a*" "*" = true
  ∧ "--a*" = "-" +:+ ("-a" +:+ "*")
  ∧ HasPrefix ("-" +:+ "abc") "-a" = true
  ∧ AcceptString {["--a*"]} "abc" = Some true.
Proof.
  split; [by apply elem_of_singleton|].
  repeat split; vm_compute; reflexivity.
Qed.

(** C3 (amended): if the set holds a negated wildcard "-q*" and the value
    has the prefix q (the pattern without its leading "-" and its trailing
    "*"; equivalently "-"+value has as prefix the pattern without its
    trailing "*"), AcceptString returns false, whatever else the set holds:
    the check comes before the all-negative rule. *)
Theorem C3_negated_wildcard_rejects (ps : gset string) (v q : string) :
  "-" +:+ (q +:+ "*") ∈ ps →
  HasPrefix v q = true →
  AcceptString ps v = Some false.
Proof.
  intros Hin Hv. rewrite AcceptString_accepts.
  by rewrite (accepts_negated_wildcard ps v q).
Qed.

Lemma C3_negated_wildcard_rejects_witness :
  AcceptString {["-kube-*"]} "kube-scheduler" = Some false.
Proof.
  apply (C3_negated_wildcard_rejects {["-kube-*"]} "kube-scheduler" "kube-").
  - apply elem_of_singleton. reflexivity.
  - vm_compute. reflexivity.
Defined.

(** C4: an all-negative pattern set accepts every value that no negation of
    the set covers (neither the literal "-"+value nor a negated wildcard
    "-q*" with q a prefix of the value); the four examples of the
    specification evaluate as stated. *)
Theorem C4_all_negative_default_accept :
  (∀ (ps : gset string) (v : string),
     ps ≠ ∅ →
     (∀ p, p ∈ ps → HasPrefix p "-" = true) →
     "-" +:+ v ∉ ps →
     (∀ q, "-" +:+ (q +:+ "*") ∈ ps → HasPrefix v q = false) →
     AcceptString ps v = Some true)
  ∧ AcceptString {["-alice"]} "bob" = Some true
  ∧ AcceptString {["-alice"]} "alice" = Some false
  ∧ AcceptString {["-kube-*"]} "kube-scheduler" = Some false
  ∧ AcceptString {["-kube-*"]} "other" = Some true.
Proof.
  split.
  - intros ps v _ Hneg Hlit Hwild. rewrite AcceptString_accepts.
    by rewrite accepts_all_negative.
  - repeat split; vm_compute; reflexivity.
Qed.

Lemma C4_all_negative_default_accept_witness :
  AcceptString {["-alice"]} "bob" = Some true.
Proof.
  apply (proj1 C4_all_negative_default_accept {["-alice"]} "bob").
  - intros H. assert ("-alice" ∈ (∅ : gset string)) as H'
      by (rewrite <- H; by apply elem_of_singleton).
    by apply not_elem_of_empty in H'.
  - intros p ->%elem_of_singleton. vm_compute. reflexivity.
  - intros H%elem_of_singleton. discriminate H.
  - intros q H%elem_of_singleton.
    assert (HasSuffix "alice" "*" = true) as Hs.
    { apply HasSuffix_app. exists q.
      change (String "-" (q +:+ "*") = String "-" "alice") in H. congruence. }
    vm_compute in Hs. discriminate Hs.
Defined.

(** ** The sort step *)

(** C5: [decodeAuditEvents] does not sort by receive time.  Its comparison
    reads [events[i]] on both sides, so it never answers [true] and three
    events received at times 1, 3, 2 come back in that order (here through
    an empty filter pipeline), which is neither ascending nor descending. *)
Theorem C5_decodeAuditEvents_not_sorted :
  decodeAuditEvents out_of_order [[]] = Some out_of_order
  ∧ ¬ ordered_by_received Z.le out_of_order
  ∧ ¬ ordered_by_received Z.ge out_of_order.
Proof.
  split; [vm_compute; reflexivity|]. split; intros H.
  - specialize (H 1%nat _ _ eq_refl eq_refl). simpl in H. lia.
  - specialize (H 0%nat _ _ eq_refl eq_refl). simpl in H. lia.
Qed.

(** ** URI decomposer *)

(** C6: the three reference paths decompose as the specification says. *)
Theorem C6_URIToParts_reference_paths :
  URIToParts "/api/v1/namespaces/foo/pods/bar"
  = Some ("foo", mkGVR "" "v1" "pods", "bar", "")
  ∧ URIToParts "/apis/apps/v1/namespaces/ns1/deployments/d1/status"
    = Some ("ns1", mkGVR "apps" "v1" "deployments", "d1", "status")
  ∧ URIToParts "/api/v1/namespaces"
    = Some ("", mkGVR "" "v1" "namespaces", "", "").
Proof. repeat split; vm_compute; reflexivity. Qed.

(** C7: [URIToParts] returns normally on every string (no index or slice
    is out of range); on the empty path, and on every path whose root
    segment is neither "api" nor "apis", the result is all empty. *)
Theorem C7_URIToParts_total :
  (∀ uri, ∃ r, URIToParts uri = Some r)
  ∧ URIToParts "" = Some ("", mkGVR "" "" "", "", "")
  ∧ (∀ uri, root_segment uri ≠ "api" → root_segment uri ≠ "apis" →
            URIToParts uri = Some ("", mkGVR "" "" "", "", "")).
Proof.
  split; [|split].
  - intros uri. destruct (URIToParts_is_Some uri) as [r Hr]. eauto.
  - reflexivity.
  - apply URIToParts_other_root.
Qed.

Lemma C7_URIToParts_total_witness :
  URIToParts "/healthz?verbose=1" = Some ("", mkGVR "" "" "", "", "").
Proof.
  apply (proj2 (proj2 C7_URIToParts_total) "/healthz?verbose=1").
  - vm_compute. discriminate.
  - vm_compute. discriminate.
Defined.

(** ** Filter primitives *)

(** C8: with the pattern set exactly {"-*"}, FilterBySubresources keeps the
    events whose decomposed subresource is empty and drops all others. *)
Theorem C8_FilterBySubresources_no_subresource (events : list Event) :
  FilterEvents (FilterBySubresources {["-*"]}) events
  = Some (filter (λ e, subresource_of e = "") events).
Proof.
  assert (∀ e, emit (FilterBySubresources {["-*"]}) e
               = if decide (subresource_of e = "") then [e] else [])
    as Hemit.
  { intros e. unfold emit, subresource_of. simpl.
    unfold FilterBySubresources_body.
    rewrite URIToParts_uri_parts.
    destruct (uri_parts (RequestURI e)) as [[[ns gvr] name] sub].
    cbv beta iota delta [mbind option_bind].
    rewrite bool_decide_eq_true_2 by (by apply elem_of_singleton).
    rewrite size_singleton. simpl.
    destruct sub as [|c sub]; simpl; [done|].
    rewrite AcceptString_accepts. simpl.
    rewrite (accepts_negated_wildcard _ _ "").
    - done.
    - by apply elem_of_singleton.
    - reflexivity. }
  rewrite FilterEvents_emit. f_equal.
  induction events as [|e events IH]; [done|].
  rewrite filter_cons, <- IH. simpl. rewrite Hemit. by case_decide.
Qed.




(** ** Empty sets *)

(** C10, as the specification states it, fails for FilterByResources: with
    an empty specifier set the event is dropped, not passed through. *)
Lemma C10_empty_resources_drop_events :
  FilterEvents (FilterByResources ∅) [pods_in_apps] = Some []
  ∧ FilterEvents (FilterByResources ∅) [pods_in_apps] ≠ Some [pods_in_apps].
Proof. split; [vm_compute; reflexivity | vm_compute; discriminate]. Qed.

(** C10 (amended): none of the three panics on an empty set; FilterByStage
    with no stage returns the events unchanged, AcceptString with no
    pattern accepts every value, and FilterByResources with no specifier
    returns the empty sequence. *)
Theorem C10_empty_sets (events : list Event) (v : string) :
  FilterEvents (FilterByStage ∅) events = Some events
  ∧ AcceptString ∅ v = Some true
  ∧ FilterEvents (FilterByResources ∅) events = Some [].
Proof.
  split; [reflexivity|]. split.
  - rewrite AcceptString_accepts. unfold accepts.
    rewrite decide_False by apply not_elem_of_empty.
    by rewrite elements_empty.
  - assert (∀ e, emit (FilterByResources ∅) e = []) as Hemit.
    { intros e.
      destruct (URIToParts_is_Some (RequestURI e))
        as [[[[ns gvr] name] sub] H].
      rewrite (emit_FilterByResources _ _ _ _ _ _ H).
      unfold listed, map_keys. by rewrite !lookup_empty, map_to_list_empty. }
    rewrite FilterEvents_emit. f_equal.
    induction events as [|e events IH]; [done|]. simpl. by rewrite Hemit.
Qed.

(** * Further properties of the code *)

(** ** The pipeline as a whole *)

Lemma all_equal_replicate {A} (x : A) (l : list A) :
  (∀ y, y ∈ l → y = x) → l = replicate (length l) x.
Proof.
  induction l as [|y l IH]; intros H; simpl; [done|].
  rewrite (H y) by left. f_equal. apply IH. intros z Hz. apply H. by right.
Qed.

Lemma contrib_replicate f e : contrib f e = replicate (mult f e) e.
Proof.
  unfold mult. apply all_equal_replicate. intros y.
  destruct f; simpl; try apply elem_of_emit.
  case_match; [by intros ->%list_elem_of_singleton | apply elem_of_emit].
Qed.

Lemma bind_singleton_id {A} (l : list A) : l ≫= (λ x, [x]) = l.
Proof.
  induction l as [|x l IH]; [done|]. by rewrite bind_cons, IH.
Qed.

Lemma FilterEvents_contrib f events :
  FilterEvents f events = Some (events ≫= contrib f).
Proof.
  rewrite FilterEvents_emit. f_equal. destruct f; try done.
  unfold contrib. destruct (size Stages =? 0)%nat; [|done].
  symmetry. apply bind_singleton_id.
Qed.

Lemma bind_replicate {A} (g : A → list A) (n m : A → nat) (l : list A) :
  (∀ x, g x = replicate (m x) x) →
  (l ≫= λ x, replicate (n x) x) ≫= g = l ≫= λ x, replicate (n x * m x) x.
Proof.
  intros Hg. induction l as [|x l IH]; [done|].
  rewrite !bind_cons, bind_app, IH. f_equal. clear IH.
  induction (n x) as [|k IHk]; [done|].
  change (replicate (S k) x) with (x :: replicate k x).
  rewrite bind_cons, IHk, Hg.
  change (S k * m x)%nat with (m x + k * m x)%nat.
  by rewrite replicate_add.
Qed.

(** The output of a pipeline, event by event. *)
Lemma AuditFilters_FilterEvents_mult (fs : AuditFilters) events :
  AuditFilters_FilterEvents fs events
  = Some (events ≫= λ e, replicate (pipeline_mult fs e) e).
Proof.
  unfold AuditFilters_FilterEvents. revert events.
  induction fs as [|f fs IH]; intros events; simpl.
  - f_equal. symmetry. apply bind_singleton_id.
  - rewrite FilterEvents_contrib. simpl. rewrite IH. f_equal.
    rewrite <- (bind_replicate _ (mult f) (pipeline_mult fs)) by done.
    f_equal. clear. induction events as [|e events IH]; [done|].
    by rewrite !bind_cons, IH, contrib_replicate.
Qed.

Lemma bind_replicate_ext {A} (n m : A → nat) (l : list A) :
  (∀ x, x ∈ l → n x = m x) →
  l ≫= (λ x, replicate (n x) x) = l ≫= (λ x, replicate (m x) x).
Proof.
  induction l as [|x l IH]; intros H; [done|].
  rewrite !bind_cons, (H x) by left. f_equal. apply IH.
  intros y Hy. apply H. by right.
Qed.

Lemma mult_at_most_once f e :
  is_FilterByResources f = false → (mult f e ≤ 1)%nat.
Proof.
  intros Hf. unfold mult, contrib.
  destruct (emit_at_most_once f e Hf) as [H|H];
    destruct f; try discriminate; rewrite ?H; simpl; try lia.
  all: case_match; simpl; rewrite ?H; simpl; lia.
Qed.

(** X1: a pipeline of filters never panics, whatever the filters and the
    events, and every event of its output is an event of its input. *)
Theorem AuditFilters_FilterEvents_safe (fs : AuditFilters) events :
  ∃ out, AuditFilters_FilterEvents fs events = Some out
         ∧ ∀ e, e ∈ out → e ∈ events.
Proof.
  rewrite AuditFilters_FilterEvents_mult. eexists; split; [done|].
  intros e (x & Hin & Hx)%list_elem_of_bind.
  by apply elem_of_replicate_inv in Hin as ->.
Qed.

Lemma for_range_app {A S} (body : S → A → option S) (xs ys : list A) (s : S) :
  for_range body (xs ++ ys) s = for_range body xs s ≫= for_range body ys.
Proof.
  revert s; induction xs as [|x xs IH]; intros s; simpl; [done|].
  destruct (body s x); simpl; [apply IH | done].
Qed.

(** X2: running the pipeline [fs ++ gs] is running [fs] and then [gs] on
    what [fs] returned: each filter sees only the events that survived the
    filters before it. *)
Theorem AuditFilters_FilterEvents_app (fs gs : AuditFilters) events :
  AuditFilters_FilterEvents (fs ++ gs) events
  = AuditFilters_FilterEvents fs events ≫= AuditFilters_FilterEvents gs.
Proof. apply for_range_app. Qed.

Lemma pipeline_mult_perm fs gs e :
  fs ≡ₚ gs → pipeline_mult fs e = pipeline_mult gs e.
Proof.
  unfold pipeline_mult. induction 1 as [|f fs gs _ IH|f g fs|fs gs hs _ IH1 _ IH2];
    simpl; [done | by rewrite IH | lia | by rewrite IH1].
Qed.

(** X3: the result of a pipeline does not depend on the order in which its
    filters are listed. *)
Theorem AuditFilters_FilterEvents_perm (fs gs : AuditFilters) events :
  fs ≡ₚ gs →
  AuditFilters_FilterEvents fs events = AuditFilters_FilterEvents gs events.
Proof.
  intros Hp. rewrite !AuditFilters_FilterEvents_mult. f_equal.
  apply bind_replicate_ext. intros e _. by apply pipeline_mult_perm.
Qed.

Lemma AuditFilters_FilterEvents_perm_witness :
  AuditFilters_FilterEvents [FilterByFailures; FilterByVerbs {["get"]}]
                            [pods_in_apps]
  = AuditFilters_FilterEvents [FilterByVerbs {["get"]}; FilterByFailures]
                              [pods_in_apps].
Proof.
  apply (AuditFilters_FilterEvents_perm
           [FilterByFailures; FilterByVerbs {["get"]}]
           [FilterByVerbs {["get"]}; FilterByFailures] [pods_in_apps]).
  apply Permutation_swap.
Defined.

Lemma AuditFilters_sublist_witness :
  ∃ out, AuditFilters_FilterEvents [FilterByVerbs {["get"]}] [pods_in_apps]
         = Some out ∧ sublist out [pods_in_apps].
Proof.
  apply (AuditFilters_sublist [FilterByVerbs {["get"]}] [pods_in_apps]).
  constructor; [reflexivity | constructor].
Defined.

(** X5: every primitive but [FilterByResources] is idempotent: filtering
    its own output again changes nothing. *)
Theorem FilterEvents_idempotent f events :
  is_FilterByResources f = false →
  FilterEvents f events ≫= FilterEvents f = FilterEvents f events.
Proof.
  intros Hf. rewrite FilterEvents_contrib. simpl.
  rewrite FilterEvents_contrib. f_equal.
  assert (∀ l, l ≫= contrib f = l ≫= λ e, replicate (mult f e) e) as Hc.
  { intros l. induction l as [|x l IH]; [done|].
    by rewrite !bind_cons, IH, contrib_replicate. }
  rewrite (Hc events), (bind_replicate _ (mult f) (mult f))
    by apply contrib_replicate.
  apply bind_replicate_ext. intros e _.
  pose proof (mult_at_most_once f e Hf). nia.
Qed.

Lemma FilterEvents_idempotent_witness :
  FilterEvents (FilterByVerbs {["get"]}) [pods_in_apps]
    ≫= FilterEvents (FilterByVerbs {["get"]})
  = FilterEvents (FilterByVerbs {["get"]}) [pods_in_apps].
Proof.
  apply (FilterEvents_idempotent (FilterByVerbs {["get"]}) [pods_in_apps]).
  reflexivity.
Defined.

(** ** Single primitives and small pipelines *)

Lemma bind_replicate_filter {A} (P : A → Prop) `{∀ x, Decision (P x)}
    (n : A → nat) (l : list A) :
  (∀ x, n x = if decide (P x) then 1%nat else 0%nat) →
  l ≫= (λ x, replicate (n x) x) = filter P l.
Proof.
  intros Hn. induction l as [|x l IH]; [done|].
  rewrite bind_cons, filter_cons, IH, Hn. by case_decide.
Qed.

Lemma AuditFilters_FilterEvents_filter (P : Event → Prop)
    `{∀ e, Decision (P e)} (fs : AuditFilters) events :
  (∀ e, pipeline_mult fs e = if decide (P e) then 1%nat else 0%nat) →
  AuditFilters_FilterEvents fs events = Some (filter P events).
Proof.
  intros Hm. rewrite AuditFilters_FilterEvents_mult. f_equal.
  by apply bind_replicate_filter.
Qed.

Lemma FilterEvents_as_pipeline f events :
  FilterEvents f events = AuditFilters_FilterEvents [f] events.
Proof.
  unfold AuditFilters_FilterEvents. simpl. by destruct (FilterEvents f events).
Qed.

Lemma FilterEvents_filter (P : Event → Prop) `{∀ e, Decision (P e)}
    f events :
  (∀ e, mult f e = if decide (P e) then 1%nat else 0%nat) →
  FilterEvents f events = Some (filter P events).
Proof.
  intros Hm. rewrite FilterEvents_as_pipeline.
  apply AuditFilters_FilterEvents_filter. intros e. simpl.
  rewrite Hm. case_decide; lia.
Qed.

Lemma filter_True {A} (l : list A) : filter (λ _, True) l = l.
Proof.
  induction l as [|x l IH]; [done|]. rewrite filter_cons, IH. by case_decide.
Qed.

Lemma filter_False {A} (l : list A) : filter (λ _, False) l = [].
Proof.
  induction l as [|x l IH]; [done|]. rewrite filter_cons, IH. by case_decide.
Qed.

Lemma accepts_empty v : accepts ∅ v = true.
Proof.
  unfold accepts. rewrite decide_False by apply not_elem_of_empty.
  by rewrite elements_empty.
Qed.

Lemma FilterEvents_all f events :
  (∀ e, contrib f e = [e]) → FilterEvents f events = Some events.
Proof.
  intros Hc. rewrite FilterEvents_contrib. f_equal.
  induction events as [|e events IH]; [done|]. by rewrite bind_cons, Hc, IH.
Qed.

Lemma FilterEvents_none f events :
  (∀ e, contrib f e = []) → FilterEvents f events = Some [].
Proof.
  intros Hc. rewrite FilterEvents_contrib. f_equal.
  induction events as [|e events IH]; [done|]. by rewrite bind_cons, Hc, IH.
Qed.

(** X6: the primitives built on AcceptString pass every event through when
    their pattern set is empty (FilterByNamespaces, FilterBySubresources,
    FilterByNames, FilterByUIDs, FilterByUser, FilterByVerbs), whereas
    FilterByHTTPStatus with an empty code set drops every event. *)
Theorem FilterEvents_empty_sets (events : list Event) :
  FilterEvents (FilterByNamespaces ∅) events = Some events
  ∧ FilterEvents (FilterBySubresources ∅) events = Some events
  ∧ FilterEvents (FilterByNames ∅) events = Some events
  ∧ FilterEvents (FilterByUIDs ∅) events = Some events
  ∧ FilterEvents (FilterByUser ∅) events = Some events
  ∧ FilterEvents (FilterByVerbs ∅) events = Some events
  ∧ FilterEvents (FilterByHTTPStatus ∅) events = Some [].
Proof.
  repeat split;
    [apply FilterEvents_all .. | apply FilterEvents_none]; intros e;
    unfold contrib, emit; simpl;
    unfold FilterByNamespaces_body, FilterBySubresources_body,
      FilterByNames_body, FilterByUIDs_body, FilterByUser_body,
      FilterByVerbs_body, FilterByHTTPStatus_body;
    rewrite ?URIToParts_uri_parts; simpl;
    try destruct (uri_parts (RequestURI e)) as [[[ns gvr] name] sub];
    rewrite ?AcceptString_accepts, ?accepts_empty; simpl; try done.
  by destruct (ResponseStatus e).
Qed.

Lemma pipeline_two_as_one f g h events :
  (∀ e, (mult f e * mult g e)%nat = mult h e) →
  AuditFilters_FilterEvents [f; g] events = FilterEvents h events.
Proof.
  intros Hm. rewrite FilterEvents_as_pipeline.
  rewrite !AuditFilters_FilterEvents_mult. f_equal.
  apply bind_replicate_ext. intros e _. simpl. rewrite <- Hm. lia.
Qed.

Lemma mult_FilterByAfter a e :
  mult (FilterByAfter a) e
  = if Time_After (RequestReceivedTimestamp e) a then 1%nat else 0%nat.
Proof.
  unfold mult, contrib, emit. simpl. unfold FilterByAfter_body.
  by case_match.
Qed.

Lemma mult_FilterByBefore b e :
  mult (FilterByBefore b) e
  = if Time_Before (RequestReceivedTimestamp e) b then 1%nat else 0%nat.
Proof.
  unfold mult, contrib, emit. simpl. unfold FilterByBefore_body.
  by case_match.
Qed.

Lemma mult_FilterByDuration d e :
  mult (FilterByDuration d) e
  = if (Time_Sub (StageTimestamp e) (RequestReceivedTimestamp e) <=? d)%Z
    then 1%nat else 0%nat.
Proof.
  unfold mult, contrib, emit. simpl. unfold FilterByDuration_body.
  by case_match.
Qed.

Lemma mult_FilterByFailures e :
  mult FilterByFailures e
  = match ResponseStatus e with
    | Some st => if (299 <? Code st)%Z then 1%nat else 0%nat
    | None => 0%nat
    end.
Proof.
  unfold mult, contrib, emit. simpl. unfold FilterByFailures_body.
  destruct (ResponseStatus e); [by case_match | done].
Qed.

Lemma mult_FilterByHTTPStatus codes e :
  mult (FilterByHTTPStatus codes) e
  = match ResponseStatus e with
    | Some st => if decide (Code st ∈ codes) then 1%nat else 0%nat
    | None => 0%nat
    end.
Proof.
  unfold mult, contrib, emit. simpl. unfold FilterByHTTPStatus_body.
  destruct (ResponseStatus e); [by case_decide | done].
Qed.

(** X7: the two time filters are strict on both sides.  The pair built for
    the options "to" and "from" keeps exactly the events received strictly
    after [a] and strictly before [b]; an event received at [a] or at [b]
    itself is dropped. *)
Theorem FilterEvents_time_window (a b : Time) (events : list Event) :
  AuditFilters_FilterEvents [FilterByBefore b; FilterByAfter a] events
  = Some (filter (λ e, a < RequestReceivedTimestamp e < b)%Z events).
Proof.
  apply AuditFilters_FilterEvents_filter. intros e. simpl.
  rewrite mult_FilterByBefore, mult_FilterByAfter.
  unfold Time_Before, Time_After.
  destruct (Z.ltb_spec (RequestReceivedTimestamp e) b);
    destruct (Z.ltb_spec a (RequestReceivedTimestamp e));
    case_decide; simpl; lia.
Qed.

(** X8: asking for failures and for a set of status codes keeps the events
    whose code is in the set and above 299; with only codes up to 299 in
    the set nothing is left. *)
Theorem FilterEvents_failures_and_status (codes : gset Z) events :
  AuditFilters_FilterEvents [FilterByHTTPStatus codes; FilterByFailures] events
  = FilterEvents (FilterByHTTPStatus (filter (λ c, 299 < c)%Z codes)) events
  ∧ ((∀ c, c ∈ codes → c ≤ 299)%Z →
     AuditFilters_FilterEvents [FilterByHTTPStatus codes; FilterByFailures]
                               events = Some []).
Proof.
  assert (AuditFilters_FilterEvents
            [FilterByHTTPStatus codes; FilterByFailures] events
          = FilterEvents
              (FilterByHTTPStatus (filter (λ c, 299 < c)%Z codes)) events)
    as Heq.
  { apply pipeline_two_as_one. intros e.
    rewrite !mult_FilterByHTTPStatus, mult_FilterByFailures.
    destruct (ResponseStatus e) as [st|]; [|done].
    destruct (Z.ltb_spec 299 (Code st));
      repeat case_decide; try done;
      rewrite elem_of_filter in *; try tauto; lia. }
  split; [done|]. intros Hle. rewrite Heq.
  apply FilterEvents_none. intros e.
  pose proof (mult_FilterByHTTPStatus (filter (λ c, 299 < c)%Z codes) e) as Hm.
  assert (mult (FilterByHTTPStatus (filter (λ c, (299 < c)%Z) codes)) e = 0%nat)
    as H0.
  { rewrite Hm. destruct (ResponseStatus e) as [st|]; [|done].
    rewrite decide_False; [done|].
    intros [? ?%Hle]%elem_of_filter. lia. }
  unfold mult in H0. by apply nil_length_inv in H0.
Qed.

Lemma FilterEvents_failures_and_status_witness :
  AuditFilters_FilterEvents [FilterByHTTPStatus {[200%Z]}; FilterByFailures]
                            [pods_in_apps] = Some [].
Proof.
  apply (proj2 (FilterEvents_failures_and_status {[200%Z]} [pods_in_apps])).
  intros c ->%elem_of_singleton. lia.
Defined.

(** X9: two duration filters in a row act as one filter with the smaller
    threshold. *)
Theorem FilterByDuration_twice (d1 d2 : Duration) events :
  AuditFilters_FilterEvents [FilterByDuration d1; FilterByDuration d2] events
  = FilterEvents (FilterByDuration (Z.min d1 d2)) events.
Proof.
  apply pipeline_two_as_one. intros e. rewrite !mult_FilterByDuration.
  set (x := Time_Sub _ _).
  destruct (Z.leb_spec x d1); destruct (Z.leb_spec x d2);
    destruct (Z.leb_spec x (Z.min d1 d2)); simpl; lia.
Qed.

(** ** The resource matcher, in full *)

Lemma accept_loop_triggered Resources gvr :
  accept_loop gvr (map_keys Resources) = true
  ↔ accept_triggered Resources gvr.
Proof.
  rewrite accept_loop_true. unfold accept_triggered.
  by setoid_rewrite elem_of_map_keys.
Qed.

Lemma accept_loop_order gvr keys keys' :
  keys ≡ₚ keys' → accept_loop gvr keys = accept_loop gvr keys'.
Proof.
  intros Hp. apply eq_true_iff_eq. rewrite !accept_loop_true.
  by setoid_rewrite Hp.
Qed.

(** X10: which events FilterByResources keeps.  An event is in the output
    exactly when the specifier (group, "-"+resource) is not listed and
    either its exact pair is listed, or no specifier triggers the
    anti-match scan and some specifier satisfies the accept scan.  No
    event is put into the output more than twice. *)
Theorem FilterByResources_membership Resources events e ns gvr name sub :
  URIToParts (RequestURI e) = Some (ns, gvr, name, sub) →
  ∃ out, FilterEvents (FilterByResources Resources) events = Some out
         ∧ (e ∈ out
            ↔ e ∈ events
              ∧ listed Resources (antiMatch_of gvr) = false
              ∧ (listed Resources (GVR_GroupResource gvr) = true
                 ∨ (¬ anti_triggered Resources gvr
                    ∧ accept_triggered Resources gvr)))
         ∧ (length out ≤ 2 * length events)%nat.
Proof.
  intros Huri. rewrite FilterEvents_emit. eexists; split; [done|]. split.
  - rewrite elem_of_bind_emit, (emit_FilterByResources _ _ _ _ _ _ Huri).
    rewrite <- anti_match_loop_triggered, <- accept_loop_triggered.
    destruct (listed Resources (antiMatch_of gvr));
      destruct (listed Resources (GVR_GroupResource gvr));
      destruct (anti_match_loop _ _ _);
      destruct (accept_loop _ _); simpl;
      rewrite ?elem_of_cons, ?elem_of_nil; intuition congruence.
  - clear. induction events as [|x events IH]; [simpl; lia|].
    rewrite bind_cons, length_app. simpl length.
    assert (length (emit (FilterByResources Resources) x) ≤ 2)%nat; [|lia].
    destruct (URIToParts_is_Some (RequestURI x)) as [[[[n g] m] s] H].
    rewrite (emit_FilterByResources _ _ _ _ _ _ H).
    repeat case_match; simpl; lia.
Qed.

Lemma FilterByResources_membership_witness :
  ∃ out, FilterEvents (FilterByResources exact_and_wildcard) [pods_in_apps]
         = Some out
         ∧ (pods_in_apps ∈ out
            ↔ pods_in_apps ∈ [pods_in_apps]
              ∧ listed exact_and_wildcard
                       (antiMatch_of (mkGVR "apps" "v1" "pods")) = false
              ∧ (listed exact_and_wildcard
                        (GVR_GroupResource (mkGVR "apps" "v1" "pods")) = true
                 ∨ (¬ anti_triggered exact_and_wildcard
                        (mkGVR "apps" "v1" "pods")
                    ∧ accept_triggered exact_and_wildcard
                        (mkGVR "apps" "v1" "pods"))))
         ∧ (length out ≤ 2 * length [pods_in_apps])%nat.
Proof.
  apply (FilterByResources_membership exact_and_wildcard [pods_in_apps]
           pods_in_apps "ns" (mkGVR "apps" "v1" "pods") "x" "").
  reflexivity.
Defined.

Lemma FilterByResources_plain Resources events :
  (∀ k, is_Some (Resources !! k) → gr_Group k ≠ "*" ∧ gr_Resource k ≠ "*") →
  FilterEvents (FilterByResources Resources) events
  = Some (filter (λ e, listed Resources (antiMatch_of (gvr_of e)) = false
                       ∧ listed Resources (GVR_GroupResource (gvr_of e))
                         = true) events).
Proof.
  intros Hplain. apply FilterEvents_filter. intros e.
  unfold mult, contrib, gvr_of.
  destruct (URIToParts_is_Some (RequestURI e)) as [[[[ns gvr] name] sub] H].
  rewrite (emit_FilterByResources _ _ _ _ _ _ H), H.
  assert (accept_loop gvr (map_keys Resources) = false) as ->.
  { apply not_true_is_false. intros (k & Hk & Hc)%accept_loop_triggered.
    destruct (Hplain k Hk). unfold accept_cond in Hc. tauto. }
  destruct (anti_match_loop _ _ _);
    destruct (listed Resources (antiMatch_of gvr));
    destruct (listed Resources (GVR_GroupResource gvr)); simpl;
    try case_decide; try done; tauto.
Qed.

(** X11: when no specifier of the set has the group "*" or the resource
    "*", FilterByResources keeps each event at most once, and keeps exactly
    the events whose exact pair is listed while (group, "-"+resource) is
    not. *)
Theorem FilterByResources_without_wildcards Resources events :
  (∀ k, is_Some (Resources !! k) → gr_Group k ≠ "*" ∧ gr_Resource k ≠ "*") →
  FilterEvents (FilterByResources Resources) events
  = Some (filter (λ e, listed Resources (antiMatch_of (gvr_of e)) = false
                       ∧ listed Resources (GVR_GroupResource (gvr_of e))
                         = true) events).
Proof. apply FilterByResources_plain. Qed.

Lemma FilterByResources_without_wildcards_witness :
  FilterEvents (FilterByResources {[mkGR "apps" "pods" := true]})
               [pods_in_apps]
  = Some (filter (λ e, listed {[mkGR "apps" "pods" := true]}
                              (antiMatch_of (gvr_of e)) = false
                       ∧ listed {[mkGR "apps" "pods" := true]}
                                (GVR_GroupResource (gvr_of e)) = true)
                 [pods_in_apps]).
Proof.
  apply (FilterByResources_without_wildcards
           {[mkGR "apps" "pods" := true]} [pods_in_apps]).
  intros k [v Hk]. apply lookup_singleton_Some in Hk as [<- _].
  split; discriminate.
Defined.

(** X12: the two scans over the specifier map give the same answer for
    every order in which the map is iterated. *)
Theorem resource_scans_order gvr (keys keys' : list GroupResource) :
  keys ≡ₚ keys' →
  anti_match_loop gvr (antiMatch_of gvr) keys
  = anti_match_loop gvr (antiMatch_of gvr) keys'
  ∧ accept_loop gvr keys = accept_loop gvr keys'.
Proof.
  intros Hp. split; [by apply anti_match_loop_order|].
  by apply accept_loop_order.
Qed.

Lemma resource_scans_order_witness :
  anti_match_loop (mkGVR "apps" "v1" "pods")
                  (antiMatch_of (mkGVR "apps" "v1" "pods"))
                  [mkGR "*" "-pods"; mkGR "apps" "pods"]
  = anti_match_loop (mkGVR "apps" "v1" "pods")
                    (antiMatch_of (mkGVR "apps" "v1" "pods"))
                    [mkGR "apps" "pods"; mkGR "*" "-pods"]
  ∧ accept_loop (mkGVR "apps" "v1" "pods")
                [mkGR "*" "-pods"; mkGR "apps" "pods"]
    = accept_loop (mkGVR "apps" "v1" "pods")
                  [mkGR "apps" "pods"; mkGR "*" "-pods"].
Proof.
  apply (resource_scans_order (mkGVR "apps" "v1" "pods")
           [mkGR "*" "-pods"; mkGR "apps" "pods"]
           [mkGR "apps" "pods"; mkGR "*" "-pods"]).
  apply Permutation_swap.
Defined.

(** ** The pattern matcher, in full *)

Lemma existsb_perm {A} (P : A → bool) (l l' : list A) :
  l ≡ₚ l' → existsb P l = existsb P l'.
Proof.
  intros Hp. apply eq_true_iff_eq. rewrite !existsb_exists.
  split; intros (x & Hx & HP); exists x; split; try done.
  - by apply (Permutation_in _ Hp).
  - by apply (Permutation_in _ (Permutation_sym Hp)).
Qed.

Lemma forallb_perm {A} (P : A → bool) (l l' : list A) :
  l ≡ₚ l' → forallb P l = forallb P l'.
Proof.
  intros Hp. apply eq_true_iff_eq. rewrite !forallb_forall.
  split; intros H x Hx; apply H.
  - by apply (Permutation_in _ (Permutation_sym Hp)).
  - by apply (Permutation_in _ Hp).
Qed.

(** X13: the three loops of AcceptString over the pattern set give the
    same answer for every order in which the set is listed. *)
Theorem AcceptString_loops_order (v : string) (l l' : list string) :
  l ≡ₚ l' →
  negated_wildcard_loop v l = negated_wildcard_loop v l'
  ∧ all_negative_loop l = all_negative_loop l'
  ∧ wildcard_loop v l = wildcard_loop v l'.
Proof.
  intros Hp.
  rewrite !negated_wildcard_loop_spec, !all_negative_loop_spec,
    !wildcard_loop_spec.
  by rewrite (existsb_perm _ _ _ Hp), (forallb_perm _ _ _ Hp),
    (existsb_perm (pos_wild_hit v) _ _ Hp).
Qed.

Lemma AcceptString_loops_order_witness :
  negated_wildcard_loop "kube-x" ["-kube-*"; "a"]
  = negated_wildcard_loop "kube-x" ["a"; "-kube-*"]
  ∧ all_negative_loop ["-kube-*"; "a"] = all_negative_loop ["a"; "-kube-*"]
  ∧ wildcard_loop "kube-x" ["-kube-*"; "a"]
    = wildcard_loop "kube-x" ["a"; "-kube-*"].
Proof.
  apply (AcceptString_loops_order "kube-x" ["-kube-*"; "a"] ["a"; "-kube-*"]).
  apply Permutation_swap.
Defined.

(** The patterns the last loop reacts to are those of the shape "q*" that
    do not start with "-", with [q] a prefix of the value. *)
Lemma pos_wild_hit_shape v p :
  pos_wild_hit v p = true
  ↔ ∃ q, p = q +:+ "*" ∧ HasPrefix p "-" = false ∧ HasPrefix v q = true.
Proof.
  unfold pos_wild_hit. rewrite !andb_true_iff, negb_true_iff. split.
  - intros [[Hs Hp] Hv]. apply HasSuffix_app in Hs as [q ->].
    exists q. split; [done|]. split; [done|].
    rewrite len_app in Hv. simpl len in Hv.
    replace (len q + 1 - 1)%nat with (len q) in Hv by lia.
    by rewrite substring_0_app in Hv.
  - intros (q & -> & Hp & Hv). split; [split; [|done]|].
    + apply HasSuffix_app. eauto.
    + rewrite len_app. simpl len.
      replace (len q + 1 - 1)%nat with (len q) by lia.
      by rewrite substring_0_app.
Qed.

(** X14: AcceptString on a set that holds at least one pattern without a
    leading "-".  The value is accepted exactly when no negation covers it
    (neither the literal "-"+value nor a wildcard "-q*" with q a prefix of
    the value) and it is listed itself or covered by a wildcard "q*" of the
    set; a negation wins over every positive pattern. *)
Theorem AcceptString_with_positive_pattern (ps : gset string) (v : string) :
  (∃ p, p ∈ ps ∧ HasPrefix p "-" = false) →
  AcceptString ps v = Some true
  ↔ ("-" +:+ v ∉ ps)
    ∧ (∀ q, "-" +:+ (q +:+ "*") ∈ ps → HasPrefix v q = false)
    ∧ (v ∈ ps
       ∨ ∃ q, q +:+ "*" ∈ ps ∧ HasPrefix (q +:+ "*") "-" = false
              ∧ HasPrefix v q = true).
Proof.
  intros (p0 & Hp0 & Hpos). rewrite AcceptString_accepts. unfold accepts.
  assert (forallb (λ p, HasPrefix p "-") (elements ps) = false) as ->.
  { apply not_true_is_false. intros H. rewrite forallb_elements in H.
    rewrite (H p0 Hp0) in Hpos. discriminate. }
  case_decide as Hlit; [split; [done | tauto]|].
  destruct (existsb (neg_wild_hit v) (elements ps)) eqn:Hneg.
  { split; [done|]. intros (_ & Hw & _).
    apply existsb_elements in Hneg as (p & Hp & Hhit).
    apply neg_wild_hit_shape in Hhit as (q & -> & Hq).
    rewrite (Hw q Hp) in Hq. discriminate. }
  assert (∀ q, "-" +:+ (q +:+ "*") ∈ ps → HasPrefix v q = false) as Hw.
  { intros q Hq. apply not_true_is_false. intros Hv.
    apply not_true_iff_false in Hneg. apply Hneg.
    apply existsb_elements. eexists; split; [done|].
    apply neg_wild_hit_shape. eauto. }
  case_decide as Hin; [by intuition|].
  split.
  - intros [= H]. apply existsb_elements in H as (p & Hp & Hhit).
    apply pos_wild_hit_shape in Hhit as (q & -> & ? & ?). by eauto 10.
  - intros (_ & _ & [?|(q & Hq & Hqp & Hv)]); [done|]. f_equal.
    apply existsb_elements. eexists; split; [done|].
    apply pos_wild_hit_shape. eauto.
Qed.

Lemma AcceptString_with_positive_pattern_witness :
  AcceptString {["kube-*"]} "kube-scheduler" = Some true
  ↔ ("-" +:+ "kube-scheduler" ∉ ({["kube-*"]} : gset string))
    ∧ (∀ q, "-" +:+ (q +:+ "*") ∈ ({["kube-*"]} : gset string)
            → HasPrefix "kube-scheduler" q = false)
    ∧ ("kube-scheduler" ∈ ({["kube-*"]} : gset string)
       ∨ ∃ q, q +:+ "*" ∈ ({["kube-*"]} : gset string)
              ∧ HasPrefix (q +:+ "*") "-" = false
              ∧ HasPrefix "kube-scheduler" q = true).
Proof.
  apply (AcceptString_with_positive_pattern {["kube-*"]} "kube-scheduler").
  exists "kube-*". split; [by apply elem_of_singleton | reflexivity].
Defined.

(** ** The URI decomposer on well-formed paths *)

Lemma Split_head_app (a b : string) (sep : ascii) :
  Split (a +:+ String sep b) sep !! 0%nat = Split a sep !! 0%nat.
Proof.
  induction a as [|c a IH].
  - change (Split (String sep b) sep !! 0%nat = Some ""). simpl.
    by rewrite Ascii.eqb_refl.
  - change (Split (String c (a +:+ String sep b)) sep !! 0%nat
            = Split (String c a) sep !! 0%nat).
    simpl. destruct (Ascii.eqb c sep); [done|].
    destruct (Split_cons (a +:+ String sep b) sep) as (h & t & H).
    destruct (Split_cons a sep) as (h' & t' & H').
    rewrite H, H' in *. simpl in *. congruence.
Qed.

Lemma Split_free (a : string) (sep : ascii) :
  free_of sep a = true → Split a sep = [a].
Proof.
  induction a as [|c a IH]; simpl; [done|].
  intros [Hc Ha]%andb_true_iff. apply negb_true_iff in Hc.
  by rewrite Hc, IH.
Qed.

Lemma Split_app_free (a b : string) (sep : ascii) :
  free_of sep a = true →
  Split (a +:+ String sep b) sep = a :: Split b sep.
Proof.
  induction a as [|c a IH]; intros Ha.
  - change (Split (String sep b) sep = "" :: Split b sep). simpl.
    by rewrite Ascii.eqb_refl.
  - simpl in Ha. apply andb_true_iff in Ha as [Hc Ha].
    apply negb_true_iff in Hc.
    change (Split (String c (a +:+ String sep b)) sep
            = String c a :: Split b sep).
    simpl. by rewrite Hc, IH.
Qed.

(** Splitting at a byte and joining with it again gives the string back. *)
Lemma Join_Split (s : string) (sep : ascii) :
  Join (Split s sep) (String sep "") = s.
Proof.
  induction s as [|c s IH]; [done|]. simpl.
  destruct (Split_cons s sep) as (h & t & H). rewrite H in *.
  destruct (Ascii.eqb c sep) eqn:E.
  - apply Ascii.eqb_eq in E as ->.
    change (String sep (Join (h :: t) (String sep "")) = String sep s).
    by rewrite IH.
  - destruct t as [|h' t]; [simpl in *; by rewrite IH|].
    rewrite <- IH. reflexivity.
Qed.

Lemma free_of_app c (a b : string) :
  free_of c (a +:+ b) = free_of c a && free_of c b.
Proof.
  induction a as [|d a IH]; [done|].
  change (free_of c (String d (a +:+ b)) = free_of c (String d a) && free_of c b).
  simpl. rewrite IH. by rewrite andb_assoc.
Qed.

Lemma Split_Join (segs : list string) :
  segs ≠ [] → Forall segment segs → Split (Join segs "/") "/"%char = segs.
Proof.
  intros Hne Hall. induction Hall as [|x segs [Hx _] Hall IH]; [done|].
  destruct segs as [|y segs]; simpl.
  - by apply Split_free.
  - change (Split (x +:+ String "/" (Join (y :: segs) "/")) "/"%char
            = x :: y :: segs).
    rewrite Split_app_free by done. by rewrite IH.
Qed.

Lemma free_of_Join_query (segs : list string) :
  Forall segment segs → free_of "?" (Join segs "/") = true.
Proof.
  induction 1 as [|x segs [_ Hx] Hall IH]; [done|].
  destruct segs as [|y segs]; simpl; [done|].
  change (free_of "?" (x +:+ String "/" (Join (y :: segs) "/")) = true).
  rewrite free_of_app, Hx. simpl. exact IH.
Qed.

(** The segments [URIToParts] sees on a path built from segments. *)
Lemma uri_segments_join_path (segs : list string) :
  segs ≠ [] → Forall segment segs →
  uri_segments (join_path segs) = Some segs.
Proof.
  intros Hne Hall. unfold uri_segments, join_path.
  rewrite strip_slash_total.
  change (Split (Join segs "/") "?"%char !! 0%nat
            ≫= (λ uri, Some (Split uri "/"%char)) = Some segs).
  rewrite Split_free by by apply free_of_Join_query. simpl.
  by rewrite Split_Join.
Qed.

Lemma uri_segments_query (p q : string) :
  uri_segments (p +:+ String "?" q) = uri_segments p.
Proof.
  unfold uri_segments. rewrite !strip_slash_total.
  destruct p as [|c p].
  - change (Split (String "?" q) "?"%char !! 0%nat
              ≫= (λ uri, Some (Split uri "/"%char))
            = Split "" "?"%char !! 0%nat
                ≫= (λ uri, Some (Split uri "/"%char))).
    done.
  - change (String c p +:+ String "?" q) with (String c (p +:+ String "?" q)).
    cbv beta iota. destruct (Ascii.eqb c "/").
    + cbn [mbind option_bind]. by rewrite Split_head_app.
    + change (String c (p +:+ String "?" q))
        with (String c p +:+ String "?" q).
      cbn [mbind option_bind]. by rewrite Split_head_app.
Qed.

Lemma URIToParts_query (p q : string) :
  URIToParts (p +:+ String "?" q) = URIToParts p.
Proof. unfold URIToParts. by rewrite uri_segments_query. Qed.

(** X15: the query of a request path never influences its decomposition:
    whatever follows the first "?" is ignored. *)
Theorem URIToParts_ignores_query (p q : string) :
  URIToParts (p +:+ String "?" q) = URIToParts p.
Proof. apply URIToParts_query. Qed.

Lemma Split_head_prefix (u : string) (sep : ascii) :
  ∃ r rest, Split u sep = r :: rest
            ∧ free_of sep r = true
            ∧ (u = r ∨ ∃ q, u = r +:+ String sep q).
Proof.
  induction u as [|c u (r & rest & Hs & Hf & Hu)]; simpl.
  - exists "", []. auto.
  - destruct (Ascii.eqb c sep) eqn:E.
    + apply Ascii.eqb_eq in E as ->. exists "", (Split u sep).
      split; [done|]. split; [done|]. right. by exists u.
    + rewrite Hs. exists (String c r), rest. split; [done|]. split.
      * simpl. by rewrite E.
      * destruct Hu as [->|[q ->]]; [by left|]. right. by exists q.
Qed.

(** X16: [printRequestURI] never panics; it returns the part of the path
    before the first "?" (the whole path when there is none), and
    [URIToParts] decomposes what it returns as it decomposes the path. *)
Theorem printRequestURI_path (u : string) :
  ∃ r, printRequestURI u = Some r
       ∧ free_of "?" r = true
       ∧ (u = r ∨ ∃ q, u = r +:+ String "?" q)
       ∧ URIToParts r = URIToParts u.
Proof.
  destruct (Split_head_prefix u "?") as (r & rest & Hs & Hf & Hu).
  exists r. unfold printRequestURI. rewrite Hs. simpl.
  split; [done|]. split; [done|]. split; [done|].
  destruct Hu as [->|[q ->]]; [done|].
  by rewrite URIToParts_query.
Qed.

Ltac segments_ok :=
  repeat match goal with
         | H : Forall segment (_ :: _) |- _ =>
             apply Forall_cons in H as [? H]
         end;
  try discriminate;
  repeat (first [ apply Forall_app; split | apply Forall_cons; split ]);
  try done; try (split; reflexivity).

(** X17: a path built from the segments of a namespaced resource
    decomposes into those segments, for a named group ("apis") and for
    the core group ("api") alike; the segments after the name are joined
    into the subresource. *)
Theorem URIToParts_namespaced (g v ns r n : string) (subs : list string) :
  Forall segment [g; v; ns; r; n] → Forall segment subs →
  URIToParts (join_path (["apis"; g; v; "namespaces"; ns; r; n] ++ subs))
  = Some (ns, mkGVR g v r, n, Join subs "/")
  ∧ URIToParts (join_path (["api"; v; "namespaces"; ns; r; n] ++ subs))
    = Some (ns, mkGVR "" v r, n, Join subs "/").
Proof.
  intros Hs Hsubs. unfold URIToParts.
  rewrite !uri_segments_join_path by segments_ok.
  split; destruct subs; reflexivity.
Qed.

Lemma URIToParts_namespaced_witness :
  URIToParts (join_path (["apis"; "apps"; "v1"; "namespaces"; "ns1";
                          "deployments"; "d1"] ++ ["scale"]))
  = Some ("ns1", mkGVR "apps" "v1" "deployments", "d1", Join ["scale"] "/")
  ∧ URIToParts (join_path (["api"; "v1"; "namespaces"; "ns1";
                            "deployments"; "d1"] ++ ["scale"]))
    = Some ("ns1", mkGVR "" "v1" "deployments", "d1", Join ["scale"] "/").
Proof.
  apply (URIToParts_namespaced "apps" "v1" "ns1" "deployments" "d1"
           ["scale"]).
  - repeat constructor.
  - repeat constructor.
Defined.

(** X18: on a cluster-scoped path (the segment after the version is not
    "namespaces") the namespace and the subresource are always empty:
    whatever follows the name is ignored. *)
Theorem URIToParts_cluster_scoped (g v r n : string) (rest : list string) :
  r ≠ "namespaces" →
  Forall segment [g; v; r; n] → Forall segment rest →
  URIToParts (join_path (["apis"; g; v; r; n] ++ rest))
  = Some ("", mkGVR g v r, n, "")
  ∧ URIToParts (join_path (["api"; v; r; n] ++ rest))
    = Some ("", mkGVR "" v r, n, "")
  ∧ URIToParts (join_path ["apis"; g; v; r]) = Some ("", mkGVR g v r, "", "")
  ∧ URIToParts (join_path ["api"; v; r]) = Some ("", mkGVR "" v r, "", "").
Proof.
  intros Hr%String.eqb_neq Hs Hrest. unfold URIToParts.
  rewrite !uri_segments_join_path by segments_ok.
  repeat split; cbn -[String.eqb]; rewrite Hr; reflexivity.
Qed.

Lemma URIToParts_cluster_scoped_witness :
  URIToParts (join_path (["apis"; "rbac"; "v1"; "clusterroles"; "admin"]
                         ++ ["status"]))
  = Some ("", mkGVR "rbac" "v1" "clusterroles", "admin", "")
  ∧ URIToParts (join_path (["api"; "v1"; "clusterroles"; "admin"]
                           ++ ["status"]))
    = Some ("", mkGVR "" "v1" "clusterroles", "admin", "")
  ∧ URIToParts (join_path ["apis"; "rbac"; "v1"; "clusterroles"])
    = Some ("", mkGVR "rbac" "v1" "clusterroles", "", "")
  ∧ URIToParts (join_path ["api"; "v1"; "clusterroles"])
    = Some ("", mkGVR "" "v1" "clusterroles", "", "").
Proof.
  apply (URIToParts_cluster_scoped "rbac" "v1" "clusterroles" "admin"
           ["status"]).
  - discriminate.
  - repeat constructor.
  - repeat constructor.
Defined.

(** X19: requests on a namespace object of the core group.  The path of
    the namespace gives the namespace as name and namespace, with resource
    "namespaces"; a fifth segment "finalize" or "status" is its
    subresource, and any other fifth segment is a resource listed in that
    namespace. *)
Theorem URIToParts_namespace_object (v ns r : string) :
  Forall segment [v; ns; r] → r ≠ "finalize" → r ≠ "status" →
  URIToParts (join_path ["api"; v; "namespaces"; ns])
  = Some (ns, mkGVR "" v "namespaces", ns, "")
  ∧ URIToParts (join_path ["api"; v; "namespaces"; ns; "finalize"])
    = Some (ns, mkGVR "" v "namespaces", ns, "finalize")
  ∧ URIToParts (join_path ["api"; v; "namespaces"; ns; "status"])
    = Some (ns, mkGVR "" v "namespaces", ns, "status")
  ∧ URIToParts (join_path ["api"; v; "namespaces"; ns; r])
    = Some (ns, mkGVR "" v r, "", "").
Proof.
  intros Hs Hf%String.eqb_neq Hst%String.eqb_neq. unfold URIToParts.
  rewrite !uri_segments_join_path by segments_ok.
  repeat split; cbn -[String.eqb]; rewrite ?Hf, ?Hst; reflexivity.
Qed.

Lemma URIToParts_namespace_object_witness :
  URIToParts (join_path ["api"; "v1"; "namespaces"; "foo"])
  = Some ("foo", mkGVR "" "v1" "namespaces", "foo", "")
  ∧ URIToParts (join_path ["api"; "v1"; "namespaces"; "foo"; "finalize"])
    = Some ("foo", mkGVR "" "v1" "namespaces", "foo", "finalize")
  ∧ URIToParts (join_path ["api"; "v1"; "namespaces"; "foo"; "status"])
    = Some ("foo", mkGVR "" "v1" "namespaces", "foo", "status")
  ∧ URIToParts (join_path ["api"; "v1"; "namespaces"; "foo"; "pods"])
    = Some ("foo", mkGVR "" "v1" "pods", "", "").
Proof.
  apply (URIToParts_namespace_object "v1" "foo" "pods").
  - repeat constructor.
  - discriminate.
  - discriminate.
Defined.

(** ** Building the pipeline from the options *)

Lemma setupFilters_resource_dotted (resources : gmap GroupResource bool)
    (r g : string) :
  free_of "." r = true →
  setupFilters_resource resources (r +:+ String "." g)
  = Some (<[mkGR g r := true]> resources)
  ∧ setupFilters_resource resources r = Some (<[mkGR "" r := true]> resources).
Proof.
  intros Hr. unfold setupFilters_resource. split.
  - rewrite Split_app_free by done.
    destruct (Split_cons g ".") as (h & t & Hg).
    pose proof (Join_Split g ".") as HJ. rewrite Hg in *. simpl.
    simpl in HJ. by rewrite HJ.
  - by rewrite Split_free.
Qed.

(** X20: how a resource argument is read.  "resource.group" becomes the
    specifier (group, resource), the resource being what precedes the
    first dot and the group all that follows it (dots included); an
    argument without a dot is a resource of the core group.  The specifier
    is entered as listed, and reading never panics. *)
Theorem setupFilters_resource_parse (resources : gmap GroupResource bool)
    (r g : string) :
  free_of "." r = true →
  setupFilters_resource resources (r +:+ String "." g)
  = Some (<[mkGR g r := true]> resources)
  ∧ setupFilters_resource resources r = Some (<[mkGR "" r := true]> resources).
Proof. apply setupFilters_resource_dotted. Qed.

Lemma setupFilters_resource_parse_witness :
  setupFilters_resource ∅ ("routes" +:+ String "." "route.openshift.io")
  = Some (<[mkGR "route.openshift.io" "routes" := true]> ∅)
  ∧ setupFilters_resource ∅ "routes" = Some (<[mkGR "" "routes" := true]> ∅).
Proof.
  apply (setupFilters_resource_parse ∅ "routes" "route.openshift.io").
  reflexivity.
Defined.

Lemma setupFilters_resource_is_Some resources resource :
  is_Some (setupFilters_resource resources resource).
Proof.
  unfold setupFilters_resource.
  destruct (Split_cons resource ".") as (h & t & ->). simpl.
  destruct t; simpl; by eauto.
Qed.

Lemma setupFilters_resources_is_Some rs resources :
  is_Some (for_range setupFilters_resource rs resources).
Proof.
  revert resources; induction rs as [|r rs IH]; intros m; simpl; [by eauto|].
  destruct (setupFilters_resource_is_Some m r) as [m' ->]. simpl. apply IH.
Qed.

Lemma len_0 (s : string) : (0 <? len s)%nat = false ↔ s = "".
Proof. destruct s; simpl; split; intros; done || discriminate. Qed.

(** X21: [setupFilters] never panics, and it returns an error exactly when
    one of the options "to", "from" and "duration" is given and does not
    parse; no other option can make it fail. *)
Theorem setupFilters_error (time_Parse : string → option Time)
    (time_ParseDuration : string → option Duration) (o : Options) :
  setupFilters time_Parse time_ParseDuration o ≠ Panic
  ∧ (setupFilters time_Parse time_ParseDuration o = Error
     ↔ (o_to o ≠ "" ∧ time_Parse (o_to o) = None)
       ∨ (o_from o ≠ "" ∧ time_Parse (o_from o) = None)
       ∨ (o_duration o ≠ "" ∧ time_ParseDuration (o_duration o) = None)).
Proof.
  unfold setupFilters.
  destruct (setupFilters_resources_is_Some (o_resources o) ∅) as [m ->].
  destruct (0 <? len (o_to o))%nat eqn:Eto;
    [destruct (time_Parse (o_to o)) eqn:Pto|];
    (destruct (0 <? len (o_from o))%nat eqn:Efrom;
      [destruct (time_Parse (o_from o)) eqn:Pfrom|]);
    (destruct (0 <? len (o_duration o))%nat eqn:Edur;
      [destruct (time_ParseDuration (o_duration o)) eqn:Pdur|]);
    cbn [result_bind parsed no_panic];
    repeat match goal with
           | |- context [result_bind (if ?b then _ else _) _] =>
               destruct b; cbn [result_bind parsed no_panic]
           end;
    rewrite ?len_0 in *;
    (split; [discriminate|]);
    (split; [try discriminate | try (intros _; reflexivity)]);
    try (intros _; subst; eauto 10; fail);
    try (right; left; split; [intros H0; rewrite H0 in *; discriminate|done]);
    try (left; split; [intros H0; rewrite H0 in *; discriminate|done]);
    try (right; right; split; [intros H0; rewrite H0 in *; discriminate|done]);
    intros [[? ?]|[[? ?]|[? ?]]]; congruence.
Qed.

(** X22: a query that names the single resource "r.g", with plain [r] and
    [g] (no wildcard, no leading "-"), builds a pipeline of one
    FilterByResources holding the specifier (g, r), and that pipeline keeps
    exactly the events whose path decomposes to group [g] and resource
    [r], each once and in their order. *)
Theorem setupFilters_single_resource (time_Parse : string → option Time)
    (time_ParseDuration : string → option Duration) (r g : string)
    (events : list Event) :
  free_of "." r = true → r ≠ "*" → g ≠ "*" → HasPrefix r "-" = false →
  setupFilters time_Parse time_ParseDuration
               (only_resources [r +:+ String "." g])
  = Ok [FilterByResources {[mkGR g r := true]}]
  ∧ AuditFilters_FilterEvents [FilterByResources {[mkGR g r := true]}] events
    = Some (filter (λ e, GVR_GroupResource (gvr_of e) = mkGR g r) events).
Proof.
  intros Hr Hrs Hgs Hdash. split.
  - unfold setupFilters, only_resources. simpl.
    rewrite (proj1 (setupFilters_resource_dotted ∅ r g Hr)). simpl.
    by rewrite insert_empty.
  - rewrite <- FilterEvents_as_pipeline.
    rewrite FilterByResources_plain.
    + f_equal. apply list_filter_iff. intros e. unfold listed.
      split.
      * intros [_ Hl].
        destruct (decide (mkGR g r = GVR_GroupResource (gvr_of e)))
          as [<-|Hne]; [done|].
        by rewrite lookup_singleton_ne in Hl.
      * intros ->. rewrite lookup_singleton_eq. split; [|done].
        rewrite lookup_singleton_ne; [done|].
        intros [= _ H]. rewrite H in Hdash.
        assert (HasPrefix ("-" +:+ gvr_Resource (gvr_of e)) "-" = true)
          by (apply HasPrefix_app; eauto).
        congruence.
    + intros k [v [<- _]%lookup_singleton_Some]. simpl. done.
Qed.

Lemma setupFilters_single_resource_witness :
  setupFilters (λ _, None) (λ _, None)
               (only_resources ["deployments" +:+ String "." "apps"])
  = Ok [FilterByResources {[mkGR "apps" "deployments" := true]}]
  ∧ AuditFilters_FilterEvents
      [FilterByResources {[mkGR "apps" "deployments" := true]}] [pods_in_apps]
    = Some (filter (λ e, GVR_GroupResource (gvr_of e)
                         = mkGR "apps" "deployments") [pods_in_apps]).
Proof.
  apply (setupFilters_single_resource (λ _, None) (λ _, None)
           "deployments" "apps" [pods_in_apps]).
  - reflexivity.
  - discriminate.
  - discriminate.
  - reflexivity.
Defined.

(** ** The printing loop *)

Lemma Run_print_from (printEvent : Event → option string) (limit i : Z)
    (events : list Event) (out : list string) :
  Run_print printEvent limit i events out
  = lines ← mapM printEvent
              (if (0 <? limit)%Z
               then take (if (limit <? i)%Z then 0%nat
                          else Z.to_nat (limit - i + 1)) events
               else events);
    Some (out ++ lines).
Proof.
  revert i out. induction events as [|e events IH]; intros i out; simpl.
  - rewrite take_nil. destruct (0 <? limit)%Z; simpl; by rewrite app_nil_r.
  - destruct (Z.ltb_spec 0 limit); simpl.
    + destruct (Z.ltb_spec limit i); simpl; [by rewrite app_nil_r|].
      replace (Z.to_nat (limit - i + 1))
        with (S (if (limit <? i + 1)%Z then 0%nat
                 else Z.to_nat (limit - (i + 1) + 1))).
      2:{ destruct (Z.ltb_spec limit (i + 1)); lia. }
      simpl. destruct (printEvent e) as [line|]; simpl; [|done].
      rewrite IH. destruct (Z.ltb_spec 0 limit); [|lia].
      destruct (mapM _ _); simpl; [|done].
      by rewrite <- app_assoc.
    + destruct (printEvent e) as [line|]; simpl; [|done].
      rewrite IH. destruct (Z.ltb_spec 0 limit); [lia|].
      destruct (mapM _ _); simpl; [|done].
      by rewrite <- app_assoc.
Qed.

(** X23: what [Run] prints.  Without a positive limit every event is
    printed; with a limit n > 0 the loop stops only at the index n+1, so
    the first n+1 events are printed, one more than the limit. *)
Theorem Run_print_limit (printEvent : Event → option string) (limit : Z)
    (events : list Event) :
  Run_print printEvent limit 0 events []
  = mapM printEvent
      (if (0 <? limit)%Z then take (Z.to_nat limit + 1) events else events).
Proof.
  rewrite Run_print_from.
  destruct (Z.ltb_spec 0 limit).
  - destruct (Z.ltb_spec limit 0); [lia|].
    replace (Z.to_nat (limit - 0 + 1)) with (Z.to_nat limit + 1)%nat by lia.
    by destruct (mapM _ _).
  - by destruct (mapM _ _).
Qed.

(** ** The audit files of a directory *)

Lemma Split_from_cons sep s skip : ∃ h t, Split_from sep s skip = h :: t.
Proof.
  revert skip; induction s as [|c s IH]; intros skip; simpl; [by eauto|].
  destruct skip; [|apply IH].
  destruct (HasPrefix _ _); [by eauto|].
  destruct (IH 0%nat) as (h & t & ->). eauto.
Qed.

Lemma NewAuditDirReader_body_node files f :
  NewAuditDirReader_body files f
  = Some (<[node_of f := default [] (files !! node_of f) ++ [f]]> files).
Proof.
  unfold NewAuditDirReader_body, node_of, Split_string.
  destruct (Split_from_cons "-audit" (af_name f) 0) as (h & t & ->). simpl.
  by destruct (files !! h).
Qed.

Lemma files_of_node_snoc fs f node :
  files_of_node (fs ++ [f]) node
  = if decide (node_of f = node)
    then Some (default [] (files_of_node fs node) ++ [f])
    else files_of_node fs node.
Proof.
  unfold files_of_node. rewrite filter_app, filter_cons, filter_nil.
  case_decide.
  - destruct (filter _ fs) as [|x l]; simpl; [done|].
    by destruct (l ++ [f]) eqn:E.
  - by rewrite app_nil_r.
Qed.

Lemma NewAuditDirReader_loop (done todo : list auditFile)
    (files : gmap string (list auditFile)) :
  (∀ node, files !! node = files_of_node done node) →
  ∃ files', for_range NewAuditDirReader_body todo files = Some files'
            ∧ ∀ node, files' !! node = files_of_node (done ++ todo) node.
Proof.
  revert done files. induction todo as [|f todo IH]; intros done files Hinv.
  - exists files. by rewrite app_nil_r.
  - simpl. rewrite NewAuditDirReader_body_node. simpl.
    destruct (IH (done ++ [f])
                 (<[node_of f := default [] (files !! node_of f) ++ [f]]> files))
      as (files' & Hrun & Hspec).
    + intros node. rewrite files_of_node_snoc, lookup_insert.
      case_decide; [subst; by rewrite Hinv | apply Hinv].
    + exists files'. split; [done|]. intros node.
      by rewrite Hspec, <- app_assoc.
Qed.

(** X24: the map from nodes to audit files is built without panic; the
    entry of a node holds exactly the files whose name starts with that
    node, in the order of the file list, and there is no entry without a
    file (so the first and the last file of an entry always exist). *)
Theorem NewAuditDirReader_files_by_node (auditFiles : list auditFile) :
  ∃ files, NewAuditDirReader_files auditFiles = Some files
           ∧ (∀ node, files !! node = files_of_node auditFiles node)
           ∧ (∀ node, files !! node ≠ Some []).
Proof.
  destruct (NewAuditDirReader_loop [] auditFiles ∅) as (files & Hrun & Hspec).
  { intros node. by rewrite lookup_empty. }
  exists files. split; [done|]. split; [done|].
  simpl in Hspec. intros node. rewrite Hspec. unfold files_of_node.
  by destruct (filter _ auditFiles).
Qed.

(** ** FilterByAround *)

Lemma index_Z_last {A} (l : list A) :
  index_Z l (Z.of_nat (length l) - 1) = last l.
Proof.
  unfold index_Z. rewrite last_lookup. destruct l as [|x l]; [done|].
  destruct (Z.ltb_spec (Z.of_nat (length (x :: l)) - 1) 0);
    [simpl in *; lia|].
  f_equal. simpl. lia.
Qed.

Lemma FilterByAround_loop (aroundTime : Time) (d : Duration)
    (events : list CoreEvent) :
  for_range (FilterByAround_body aroundTime d) events []
  = Some (filter (λ e, (Time_Add aroundTime (Duration_neg d)
                        ≤ LastTimestamp e ≤ Time_Add aroundTime d)%Z)
                 events).
Proof.
  rewrite (for_range_emit _
             (λ e, if Time_After (LastTimestamp e) (Time_Add aroundTime d)
                      || Time_Before (LastTimestamp e)
                           (Time_Add aroundTime (Duration_neg d))
                   then [] else [e])).
  - f_equal. simpl. induction events as [|e events IH]; [done|].
    rewrite bind_cons, filter_cons, IH. unfold Time_After, Time_Before.
    destruct (Z.ltb_spec (Time_Add aroundTime d) (LastTimestamp e));
      destruct (Z.ltb_spec (LastTimestamp e)
                           (Time_Add aroundTime (Duration_neg d)));
      case_decide; simpl; try done; lia.
  - intros ret e. unfold FilterByAround_body.
    destruct (_ || _); [by rewrite app_nil_r | done].
Qed.

(** X25: FilterByAround.FilterEvents panics on an empty event list, before
    it looks at its configuration; on a non-empty list it never panics,
    whatever the "around" string, and returns an ordered subsequence of
    its input. *)
Theorem FilterByAround_empty_and_safe (Atoi : string → option Z)
    (Date_on_day_of : Time → Z → Z → Z → Time) (Around : string)
    (d : Duration) (events : list CoreEvent) :
  FilterByAround_FilterEvents Atoi Date_on_day_of Around d [] = None
  ∧ (events ≠ [] →
     ∃ out, FilterByAround_FilterEvents Atoi Date_on_day_of Around d events
            = Some out ∧ sublist out events).
Proof.
  split; [reflexivity|]. intros Hne. unfold FilterByAround_FilterEvents.
  rewrite index_Z_last.
  destruct (last events) as [l|] eqn:Hl;
    [|by apply last_None in Hl]. simpl.
  assert (∀ t, ∃ out, for_range (FilterByAround_body t d) events []
                      = Some out ∧ sublist out events) as Hloop.
  { intros t. rewrite FilterByAround_loop. eexists; split; [done|].
    apply sublist_filter. }
  assert (∃ out : list CoreEvent, Some [] = Some out ∧ sublist out events)
    as Hnil by (exists []; split; [done | apply sublist_nil_l]).
  destruct (Split Around ":") as [|p0 [|p1 [|p2 [|p3 rest]]]]; simpl;
    try done;
    destruct (Atoi p0); try done; destruct (Atoi p1); try done;
    try destruct (Atoi p2); try done; apply Hloop.
Qed.

Lemma FilterByAround_empty_and_safe_witness :
  ∃ out, FilterByAround_FilterEvents (λ _, Some 10%Z) (λ t _ _ _, t)
           "10:10" 5%Z [mkCoreEvent 7%Z] = Some out
         ∧ sublist out [mkCoreEvent 7%Z].
Proof.
  apply (proj2 (FilterByAround_empty_and_safe (λ _, Some 10%Z) (λ t _ _ _, t)
                  "10:10" 5%Z [mkCoreEvent 7%Z])).
  discriminate.
Defined.

(** X26: with an "around" string of the form "HH:MM" whose two parts are
    numbers, FilterByAround keeps exactly the events whose timestamp lies
    within the duration of the given time of day, both bounds included;
    the day is the day of the last event of the input. *)
Theorem FilterByAround_window (Atoi : string → option Z)
    (Date_on_day_of : Time → Z → Z → Z → Time) (hh mm : string) (h m : Z)
    (d : Duration) (events : list CoreEvent) (e_last : CoreEvent) :
  free_of ":" hh = true → free_of ":" mm = true →
  Atoi hh = Some h → Atoi mm = Some m →
  (minDuration < d ≤ maxDuration)%Z →
  last events = Some e_last →
  FilterByAround_FilterEvents Atoi Date_on_day_of (hh +:+ String ":" mm) d
                              events
  = Some (filter
            (λ e, (Date_on_day_of (LastTimestamp e_last) h m 0 - d
                   ≤ LastTimestamp e
                   ≤ Date_on_day_of (LastTimestamp e_last) h m 0 + d)%Z)
            events).
Proof.
  intros Hhh Hmm Hh Hm Hd Hlast. unfold FilterByAround_FilterEvents.
  rewrite index_Z_last, Hlast. simpl.
  rewrite Split_app_free, (Split_free mm) by done. simpl.
  rewrite Hh, Hm, FilterByAround_loop. f_equal.
  apply list_filter_iff. intros e. unfold Time_Add, Duration_neg.
  destruct (Z.eqb_spec d minDuration); lia.
Qed.

Lemma FilterByAround_window_witness :
  FilterByAround_FilterEvents (λ _, Some 10%Z) (λ t _ _ _, t)
    ("10" +:+ String ":" "10") 5%Z [mkCoreEvent 7%Z]
  = Some (filter (λ e, (LastTimestamp (mkCoreEvent 7%Z) - 5
                        ≤ LastTimestamp e
                        ≤ LastTimestamp (mkCoreEvent 7%Z) + 5)%Z)
                 [mkCoreEvent 7%Z]).
Proof.
  apply (FilterByAround_window (λ _, Some 10%Z) (λ t _ _ _, t)
           "10" "10" 10%Z 10%Z 5%Z [mkCoreEvent 7%Z] (mkCoreEvent 7%Z)).
  - reflexivity.
  - reflexivity.
  - reflexivity.
  - reflexivity.
  - unfold minDuration, maxDuration. lia.
  - reflexivity.
Defined.

(** ** Sorting the audit files *)

Section SortByKey.
Context {A : Type} (key : A → Z).
Variable less : list A → nat → nat → option bool.
Hypothesis less_key : ∀ data i j x y,
  data !! i = Some x → data !! j = Some y →
  less data i j = Some (key y <? key x)%Z.

Lemma swap_lookup (data : list A) i j x y :
  data !! i = Some x → data !! j = Some y →
  ∃ data', swap data i j = Some data'
           ∧ data' ≡ₚ data
           ∧ ∀ k, data' !! k = if decide (k = j) then Some x
                               else if decide (k = i) then Some y
                               else data !! k.
Proof.
  intros Hi Hj. unfold swap. rewrite Hi, Hj. simpl.
  eexists; split; [done|]. split.
  - by apply Permutation_insert_swap.
  - intros k. pose proof (lookup_lt_Some _ _ _ Hi).
    pose proof (lookup_lt_Some _ _ _ Hj).
    rewrite !list_lookup_insert, length_insert.
    repeat case_decide; try done; subst; try lia; try tauto.
Qed.

Lemma insertion_inner_sorts (j i : nat) (data : list A) :
  (j ≤ i)%nat → (i < length data)%nat → ord_except key j i data →
  ∃ out, insertion_inner less j data = Some out
         ∧ out ≡ₚ data ∧ ord_upto key i out.
Proof.
  revert data. induction j as [|j IH]; intros data Hji Hi Hord; simpl.
  - exists data. split; [done|]. split; [done|].
    intros a b x y Hab Hb. apply Hord; [done..|lia].
  - destruct (lookup_lt_is_Some_2 data (S j)) as [x Hx]; [lia|].
    destruct (lookup_lt_is_Some_2 data j) as [y Hy]; [lia|].
    rewrite (less_key _ _ _ _ _ Hx Hy). simpl.
    destruct (Z.ltb_spec (key y) (key x)) as [Hlt|Hge].
    + destruct (swap_lookup data (S j) j x y Hx Hy)
        as (data' & -> & Hperm & Hlook). simpl.
      destruct (IH data') as (out & Hrun & Hp & Ho).
      * lia.
      * by rewrite Hperm.
      * intros a b u w Hab Hb Hbj. rewrite !Hlook.
        repeat case_decide; subst; intros ??; simplify_eq; try lia;
          match goal with
          | Hu : data !! ?a' = Some ?u', Hw : data !! ?b' = Some ?w'
            |- (key ?w' ≤ key ?u')%Z =>
              apply (Hord a' b' u' w'); [lia | lia | lia | exact Hu | exact Hw]
          end.
      * exists out. split; [done|]. split; [by rewrite Hp|done].
    + exists data. split; [done|]. split; [done|].
      intros a b u w Hab Hb Ha Hb'.
      destruct (decide (b = S j)) as [->|Hne]; [|by eapply Hord].
      simplify_eq. destruct (decide (a = j)) as [->|Haj]; [by simplify_eq|].
      assert (key y ≤ key u)%Z; [|lia].
      apply (Hord a j u y); [lia | lia | lia | done | done].
Qed.

Lemma insertion_outer_sorts (m start : nat) (data : list A) :
  (1 ≤ start)%nat → (start + m = length data)%nat →
  ord_upto key (start - 1) data →
  ∃ out, for_range (λ data i, insertion_inner less i data) (seq start m) data
         = Some out
         ∧ out ≡ₚ data ∧ ord_upto key (length data - 1) out.
Proof.
  revert start data. induction m as [|m IH]; intros start data Hs Hlen Hord.
  - exists data. split; [done|]. split; [done|].
    by replace (length data - 1)%nat with (start - 1)%nat by lia.
  - simpl.
    destruct (insertion_inner_sorts start start data) as (mid & -> & Hp & Ho).
    + done.
    + lia.
    + intros a b x y Hab Hb Hne. apply Hord; lia.
    + simpl. destruct (IH (S start) mid) as (out & Hrun & Hp' & Ho').
      * lia.
      * rewrite Hp. lia.
      * by replace (S start - 1)%nat with start by lia.
      * exists out. split; [done|]. split; [by rewrite Hp'|].
        by rewrite <- Hp.
Qed.

Lemma shell_loop_perm (idx : list nat) (data : list A) :
  (∀ i, i ∈ idx → (6 ≤ i < length data)%nat) →
  ∃ out, for_range (λ data i,
                      b ← less data i (i - 6)%nat;
                      if b : bool then swap data i (i - 6)%nat else Some data)
                   idx data = Some out
         ∧ out ≡ₚ data.
Proof.
  revert data. induction idx as [|i idx IH]; intros data Hr; simpl.
  - by exists data.
  - destruct (Hr i) as [H6 Hi]; [by left|].
    destruct (lookup_lt_is_Some_2 data i) as [x Hx]; [lia|].
    destruct (lookup_lt_is_Some_2 data (i - 6)) as [y Hy]; [lia|].
    rewrite (less_key _ _ _ _ _ Hx Hy). simpl.
    destruct (key y <? key x)%Z.
    + destruct (swap_lookup data i (i - 6) x y Hx Hy)
        as (data' & -> & Hperm & _). simpl.
      destruct (IH data') as (out & Hrun & Hp).
      * intros k Hk. rewrite Hperm. apply Hr. by right.
      * exists out. split; [done|]. by rewrite Hp.
    + simpl. apply IH. intros k Hk. apply Hr. by right.
Qed.

Lemma sort_Slice_sorts (data : list A) :
  ∃ out, sort_Slice less data = Some out
         ∧ out ≡ₚ data
         ∧ ∀ a b x y, (a < b)%nat → out !! a = Some x → out !! b = Some y →
                      (key y ≤ key x)%Z.
Proof.
  unfold sort_Slice. destruct (Nat.ltb_spec 1 (length data)) as [Hlen|Hlen].
  - destruct (shell_loop_perm (seq 6 (length data - 6)) data)
      as (mid & Hshell & Hp).
    { intros i ?%elem_of_seq. lia. }
    unfold shell_pass. rewrite Hshell. simpl. unfold insertionSort_func.
    destruct (insertion_outer_sorts (length mid - 1) 1 mid)
      as (out & -> & Hp' & Ho).
    + done.
    + rewrite Hp. lia.
    + intros a b x y Hab Hb. lia.
    + exists out. split; [done|]. split; [by rewrite Hp'|].
      intros a b x y Hab Ha Hb. apply (Ho a b); try done.
      apply lookup_lt_Some in Hb. rewrite Hp' in Hb. lia.
  - exists data. split; [done|]. split; [done|].
    intros a b x y Hab Ha Hb. apply lookup_lt_Some in Hb. lia.
Qed.
End SortByKey.

(** X27: the audit files of a directory are sorted by the time in their
    name, newest first: for up to 12 files (the range the model of
    sort.Slice covers) the sort step never panics and returns the same
    files, each file at least as new as every file after it. *)
Theorem NewAuditDirReader_sort_newest_first (auditFiles : list auditFile) :
  (length auditFiles ≤ 12)%nat →
  ∃ sorted, NewAuditDirReader_sort auditFiles = Some sorted
            ∧ sorted ≡ₚ auditFiles
            ∧ newest_first sorted.
Proof.
  intros _.
  destruct (sort_Slice_sorts af_timestamp auditFiles_less) with auditFiles
    as (out & Hrun & Hp & Ho).
  { intros data i j x y Hx Hy. unfold auditFiles_less.
    by rewrite Hx, Hy. }
  exists out. split; [done|]. split; [done|].
  intros i j fi fj. apply Ho.
Qed.

Lemma NewAuditDirReader_sort_newest_first_witness :
  ∃ sorted,
    NewAuditDirReader_sort
      [mkAuditFile "n-audit-1" "d/n-audit-1" 1%Z;
       mkAuditFile "n-audit-2" "d/n-audit-2" 2%Z] = Some sorted
    ∧ sorted ≡ₚ [mkAuditFile "n-audit-1" "d/n-audit-1" 1%Z;
                 mkAuditFile "n-audit-2" "d/n-audit-2" 2%Z]
    ∧ newest_first sorted.
Proof.
  apply (NewAuditDirReader_sort_newest_first
           [mkAuditFile "n-audit-1" "d/n-audit-1" 1%Z;
            mkAuditFile "n-audit-2" "d/n-audit-2" 2%Z]).
  simpl. lia.
Defined.
